(** * BinaryHeap: a shallow embedding of [binary_heap.py]

    The Python class [BinaryHeap] keeps a list [heap], a flag [max_heap]
    and an optional element type [type].  Its methods mutate the object
    and may raise; they are embedded as computations in a state-and-
    exception monad over a record with the same three fields.  A raised
    exception keeps whatever mutation happened before it, as in Python.
    Every method is embedded but [__repr__], which only renders text. *)

From Stdlib Require Import ZArith Lia Bool PrimFloat FloatOps SpecFloat.
From stdpp Require Import base option list strings.

Open Scope Z_scope.

(** ** Python values *)

(** The runtime types of the values the model covers.  [bool] is a
    subclass of [int]; [NoneType] stands for the unsupported types. *)
Inductive pytype : Set :=
  | TInt | TBool | TFloat | TComplex | TStr | TNoneType.

#[global] Instance pytype_eq_dec : EqDecision pytype.
Proof. solve_decision. Defined.

(** Values: [int] is unbounded, [float] is an IEEE-754 binary64,
    [complex] is a pair of floats, [str] is a sequence of one-byte
    code points. *)
Inductive value : Type :=
  | VInt (n : Z)
  | VBool (b : bool)
  | VFloat (x : float)
  | VComplex (re im : float)
  | VStr (s : string)
  | VNone.

(** [type(v)] *)
Definition type_of (v : value) : pytype :=
  match v with
  | VInt _ => TInt
  | VBool _ => TBool
  | VFloat _ => TFloat
  | VComplex _ _ => TComplex
  | VStr _ => TStr
  | VNone => TNoneType
  end.

(** [issubclass(t, u)] on the modelled types. *)
Definition issubclass (t u : pytype) : bool :=
  bool_decide (t = u) || (bool_decide (t = TBool) && bool_decide (u = TInt)).

(** [COMPARABLE_TYPES = (int, float, complex, str)] *)
Definition COMPARABLE_TYPES : list pytype := [TInt; TFloat; TComplex; TStr].

(** [isinstance(v, ts)] for a tuple of types [ts]. *)
Definition isinstance (v : value) (ts : list pytype) : bool :=
  existsb (issubclass (type_of v)) ts.

(** [v is not None] *)
Definition is_not_None (v : value) : bool :=
  match v with VNone => false | _ => true end.

(** ** Exceptions and outcomes *)

Inductive cmp_op : Set := OpLt | OpGt | OpLe | OpGe.

Inductive index_msg : Set :=
  | IndexOutOfBounds              (* "Index out of bounds", raised by the class *)
  | ListIndexOutOfRange           (* reading [l[i]] *)
  | ListAssignmentOutOfRange      (* writing [l[i] = v] *)
  | PopFromEmptyList.

Inductive type_msg : Set :=
  | InvalidElemType                          (* constructor: elem_type not supported *)
  | MustBeOfType (expected received : pytype)  (* differs from the heap's type *)
  | UnsupportedType (received : pytype)      (* no type set, type not comparable *)
  | BatchMismatch (expected received : pytype) (* build_heap: differs inside the list *)
  | ExpectedList                             (* build_heap: argument is not a list *)
  | NotSupportedBetween (op : cmp_op) (t u : pytype). (* '<' not supported between ... *)

Inductive exn : Set :=
  | IndexError (m : index_msg)
  | TypeError (m : type_msg)
  | ValueError.

(** What running a piece of code gives: a value, an exception, or, for
    the two [while] loops only, the exhaustion of the iteration budget
    (shown below never to happen). *)
Inductive outcome (A : Type) : Type :=
  | Return (a : A)
  | Raise (e : exn)
  | OutOfFuel.
Arguments Return {A} a.
Arguments Raise {A} e.
Arguments OutOfFuel {A}.

(** ** Comparisons *)

(** The exact order between an integer and a float, as CPython computes
    it; [None] when the float is a NaN. *)
Definition cmp_Z_float (n : Z) (x : float) : option comparison :=
  match Prim2SF x with
  | S754_nan => None
  | S754_infinity s => Some (if s then Gt else Lt)
  | S754_zero _ => Some (n ?= 0)
  | S754_finite s m e =>
      let sm := if s then Z.neg m else Z.pos m in
      Some (if 0 <=? e then n ?= sm * 2 ^ e else n * 2 ^ (- e) ?= sm)
  end.

Definition cmp_float (x y : float) : option comparison :=
  match PrimFloat.compare x y with
  | FEq => Some Eq
  | FLt => Some Lt
  | FGt => Some Gt
  | FNotComparable => None
  end.

(** Real numbers of the numeric tower: [bool] counts as [int]. *)
Inductive real : Type := RInt (n : Z) | RFloat (x : float).

Definition as_real (v : value) : option real :=
  match v with
  | VInt n => Some (RInt n)
  | VBool b => Some (RInt (Z.b2z b))
  | VFloat x => Some (RFloat x)
  | _ => None
  end.

Definition cmp_real (a b : real) : option comparison :=
  match a, b with
  | RInt m, RInt n => Some (m ?= n)
  | RInt m, RFloat y => cmp_Z_float m y
  | RFloat x, RInt n => CompOpp <$> cmp_Z_float n x
  | RFloat x, RFloat y => cmp_float x y
  end.

(** The three-way comparison behind [<], [>], [<=], [>=]: [None] when
    Python has no order between the operands (a [TypeError]), otherwise
    the order, itself absent when a NaN is involved. *)
Definition py_compare (v w : value) : option (option comparison) :=
  match v, w with
  | VStr s, VStr t => Some (Some (String.compare s t))
  | _, _ =>
      match as_real v, as_real w with
      | Some a, Some b => Some (cmp_real a b)
      | _, _ => None
      end
  end.

Definition holds (op : cmp_op) (c : option comparison) : bool :=
  match op, c with
  | OpLt, Some Lt => true
  | OpGt, Some Gt => true
  | OpLe, Some (Lt | Eq) => true
  | OpGe, Some (Gt | Eq) => true
  | _, _ => false
  end.

(** [v op w] for an ordering operator. *)
Definition py_order (op : cmp_op) (v w : value) : outcome bool :=
  match py_compare v w with
  | Some c => Return (holds op c)
  | None => Raise (TypeError (NotSupportedBetween op (type_of v) (type_of w)))
  end.

Definition real_eq (a b : real) : bool :=
  match cmp_real a b with Some Eq => true | _ => false end.

(** [v == w]; it never raises. *)
Definition py_eq (v w : value) : bool :=
  match v, w with
  | VStr s, VStr t => String.eqb s t
  | VNone, VNone => true
  | VComplex r i, VComplex r' i' => PrimFloat.eqb r r' && PrimFloat.eqb i i'
  | VComplex r i, _ =>
      match as_real w with
      | Some b => PrimFloat.eqb i 0 && real_eq (RFloat r) b
      | None => false
      end
  | _, VComplex r i =>
      match as_real v with
      | Some a => PrimFloat.eqb i 0 && real_eq a (RFloat r)
      | None => false
      end
  | _, _ =>
      match as_real v, as_real w with
      | Some a, Some b => real_eq a b
      | _, _ => false
      end
  end.

(** ** The object and the monad of its methods *)

Record BinaryHeap : Type := mkBinaryHeap {
  heap : list value;
  max_heap : bool;
  type : option pytype
}.

(** A method body: it reads and writes [self] and returns, raises or
    (loops only) exhausts its budget.  The state that comes with a
    [Raise] is the object as the exception leaves it. *)
Definition M (A : Type) : Type := BinaryHeap → outcome A * BinaryHeap.

Definition ret {A} (a : A) : M A := λ self, (Return a, self).

Definition bind {A B} (m : M A) (f : A → M B) : M B := λ self,
  match m self with
  | (Return a, self') => f a self'
  | (Raise e, self') => (Raise e, self')
  | (OutOfFuel, self') => (OutOfFuel, self')
  end.

Declare Scope py_scope.
Delimit Scope py_scope with py.
Bind Scope py_scope with M.
Notation "x ← m ; k" := (bind m (λ x, k))
  (at level 20, m at level 100, k at level 200, only parsing) : py_scope.
Notation "m ;; k" := (bind m (λ _, k))
  (at level 100, k at level 200, only parsing, right associativity) : py_scope.
Open Scope py_scope.

Definition raise {A} (e : exn) : M A := λ self, (Raise e, self).
Definition out_of_fuel {A} : M A := λ self, (OutOfFuel, self).

(** Evaluate a state-free expression that may raise. *)
Definition eval {A} (o : outcome A) : M A := λ self, (o, self).

(** [self.f] *)
Definition read {A} (f : BinaryHeap → A) : M A := λ self, (Return (f self), self).

(** [self.heap = l] and [self.type = t] *)
Definition set_heap (l : list value) : M unit :=
  λ self, (Return tt, mkBinaryHeap l (max_heap self) (type self)).
Definition set_type (t : option pytype) : M unit :=
  λ self, (Return tt, mkBinaryHeap (heap self) (max_heap self) t).

(** Short-circuit [a and b], [a or b] on booleans. *)
Definition and_ (a b : M bool) : M bool := x ← a; if x then b else ret false.
Definition or_ (a b : M bool) : M bool := x ← a; if x then ret true else b.
Definition not_ (a : M bool) : M bool := x ← a; ret (negb x).

(** ** The list operations the class uses on [self.heap] *)

(** The position a Python index denotes in a list of length [len]:
    negative indices count from the end. *)
Definition py_index (len : nat) (i : Z) : option nat :=
  if bool_decide (0 ≤ i < Z.of_nat len) then Some (Z.to_nat i)
  else if bool_decide (- Z.of_nat len ≤ i < 0) then Some (Z.to_nat (Z.of_nat len + i))
  else None.

(** [self.heap[i]] *)
Definition heap_getitem (i : Z) : M value := λ self,
  match py_index (length (heap self)) i with
  | Some k =>
      match heap self !! k with
      | Some v => (Return v, self)
      | None => (Raise (IndexError ListIndexOutOfRange), self)
      end
  | None => (Raise (IndexError ListIndexOutOfRange), self)
  end.

(** [self.heap[i] = v] *)
Definition heap_setitem (i : Z) (v : value) : M unit := λ self,
  match py_index (length (heap self)) i with
  | Some k => set_heap (<[k := v]> (heap self)) self
  | None => (Raise (IndexError ListAssignmentOutOfRange), self)
  end.

(** [self.heap.pop()] *)
Definition heap_pop : M value := λ self,
  match last (heap self) with
  | Some v => (Return v, mkBinaryHeap (removelast (heap self)) (max_heap self) (type self))
  | None => (Raise (IndexError PopFromEmptyList), self)
  end.

(** [self.heap.append(v)] *)
Definition heap_append (v : value) : M unit := λ self,
  set_heap (heap self ++ [v]) self.

(** The first position of [l] holding a value equal to [elem].  Python's
    list search tests [x is elem or x == elem]; the model tests [==],
    which is the same but for a NaN float searched by the very object
    stored. *)
Fixpoint find_index (elem : value) (l : list value) : option nat :=
  match l with
  | [] => None
  | x :: l' => if py_eq x elem then Some O else S <$> find_index elem l'
  end.

(** [self.heap.index(elem)] *)
Definition heap_index (elem : value) : M Z := λ self,
  match find_index elem (heap self) with
  | Some k => (Return (Z.of_nat k), self)
  | None => (Raise ValueError, self)
  end.

(** ** The methods of [BinaryHeap] *)

(** [BinaryHeap(max_heap, elem_type)] *)
Definition __init__ (max_heap : bool) (elem_type : option pytype) : outcome BinaryHeap :=
  match elem_type with
  | Some t =>
      if negb (bool_decide (t ∈ COMPARABLE_TYPES))
      then Raise (TypeError InvalidElemType)
      else Return (mkBinaryHeap [] max_heap elem_type)
  | None => Return (mkBinaryHeap [] max_heap elem_type)
  end.

Definition _is_valid_type (elem : value) : M bool :=
  t ← read type;
  if (bool_decide (t = None) && negb (isinstance elem COMPARABLE_TYPES))
     || (negb (bool_decide (t = None)) && negb (bool_decide (t = Some (type_of elem))))
  then ret false
  else ret true.

Definition size : M Z := l ← read heap; ret (Z.of_nat (length l)).

Definition get_heap : M (list value) := read heap.

Definition is_empty : M bool := n ← size; ret (n =? 0).

Definition peek : M value := heap_getitem 0.

Definition parent (i : Z) : M value :=
  if i =? 0 then ret VNone
  else
    n ← size;
    if (i <? 0) || (n <=? i) then raise (IndexError IndexOutOfBounds)
    else
      let index := (i - 1) / 2 in
      heap_getitem index.

Definition left_child (i : Z) : M value :=
  n ← size;
  if (i <? 0) || (n <=? i) then raise (IndexError IndexOutOfBounds)
  else
    let index := i * 2 + 1 in
    n ← size;
    if index <? n then heap_getitem index else ret VNone.

Definition right_child (i : Z) : M value :=
  n ← size;
  if (i <? 0) || (n <=? i) then raise (IndexError IndexOutOfBounds)
  else
    let index := i * 2 + 2 in
    n ← size;
    if index <? n then heap_getitem index else ret VNone.

Definition children (i : Z) : M (value * value) :=
  n ← size;
  if (i <? 0) || (n <=? i) then raise (IndexError IndexOutOfBounds)
  else
    l ← left_child i;
    r ← right_child i;
    ret (l, r).

(** [self.heap[i] op self.<child>(i)] *)
Definition elem_vs_child (op : cmp_op) (i : Z) (child : Z → M value) : M bool :=
  x ← heap_getitem i;
  c ← child i;
  eval (py_order op x c).

(** The condition of the two [if]s of [_check_child_invariance]:
    some existing child compares [op] against the element at [i]. *)
Definition child_violates (op : cmp_op) (i : Z) : M bool :=
  or_ (and_ (l ← left_child i; ret (is_not_None l)) (elem_vs_child op i left_child))
      (and_ (r ← right_child i; ret (is_not_None r)) (elem_vs_child op i right_child)).

Definition _check_child_invariance (i : Z) : M bool :=
  n ← size;
  if n <=? i then raise (IndexError IndexOutOfBounds)
  else
    mh ← read max_heap;
    if mh then
      bad ← child_violates OpLt i;
      if bad then ret false else ret true
    else
      bad ← child_violates OpGt i;
      if bad then ret false else ret true.

(** [temp = self.heap[j]; self.heap[j] = self.heap[i]; self.heap[i] = temp] *)
Definition swap_with (j i : Z) : M unit :=
  temp ← heap_getitem j;
  x ← heap_getitem i;
  heap_setitem j x;;
  heap_setitem i temp.

(** The [while] loop of [_heapify_up]; one unit of [fuel] per test of
    the loop condition. *)
Fixpoint heapify_up_loop (fuel : nat) (i parent_i : Z) : M unit :=
  match fuel with
  | O => out_of_fuel
  | S fuel' =>
      go ← and_ (ret (0 <=? parent_i)) (not_ (_check_child_invariance parent_i));
      if go then
        swap_with parent_i i;;
        let i := parent_i in
        let parent_i := (i - 1) / 2 in
        heapify_up_loop fuel' i parent_i
      else ret tt
  end.

Definition _heapify_up (i : Z) : M unit :=
  n ← size;
  if (i <? 0) || (n <=? i) then raise (IndexError IndexOutOfBounds)
  else
    let parent_i := (i - 1) / 2 in
    heapify_up_loop (S (Z.to_nat n)) i parent_i.

(** The test of the [if] inside the loop of [_heapify_down]. *)
Definition prefer_left (left_i right_i : Z) : M bool :=
  or_ (and_ (read max_heap)
            (l ← heap_getitem left_i; r ← heap_getitem right_i; eval (py_order OpGe l r)))
      (and_ (not_ (read max_heap))
            (l ← heap_getitem left_i; r ← heap_getitem right_i; eval (py_order OpLe l r))).

(** The [while] loop of [_heapify_down]. *)
Fixpoint heapify_down_loop (fuel : nat) (i : Z) : M unit :=
  match fuel with
  | O => out_of_fuel
  | S fuel' =>
      go ← not_ (_check_child_invariance i);
      if go then
        let left_i := i * 2 + 1 in
        let right_i := i * 2 + 2 in
        left ← prefer_left left_i right_i;
        if left then
          swap_with left_i i;;
          heapify_down_loop fuel' left_i
        else
          swap_with right_i i;;
          heapify_down_loop fuel' right_i
      else ret tt
  end.

Definition _heapify_down (i : Z) : M unit :=
  n ← size;
  if (i <? 0) || (n <=? i) then raise (IndexError IndexOutOfBounds)
  else heapify_down_loop (S (Z.to_nat n)) i.

(** [elem in self.heap] *)
Definition contains (elem : value) : M bool :=
  l ← read heap; ret (existsb (λ x, py_eq x elem) l).

Definition add (elem : value) : M unit :=
  ok ← _is_valid_type elem;
  (if negb ok then
     t ← read type;
     match t with
     | Some ty => raise (TypeError (MustBeOfType ty (type_of elem)))
     | None => raise (TypeError (UnsupportedType (type_of elem)))
     end
   else
     t ← read type;
     match t with
     | None => set_type (Some (type_of elem))
     | Some _ => ret tt
     end);;
  heap_append elem;;
  n ← size;
  if 1 <? n then
    n ← size;
    let i := n - 1 in
    _heapify_up i
  else ret tt.

Definition remove (elem : value) : M value :=
  found ← contains elem;
  if negb found then ret VNone
  else
    i ← heap_index elem;
    last ← heap_pop;
    heap_setitem i last;;
    _heapify_down i;;
    ret elem.

Definition poll : M value :=
  n ← size;
  if n =? 0 then ret VNone
  else
    root ← heap_getitem 0;
    last ← heap_pop;
    heap_setitem 0 last;;
    _heapify_down 0;;
    ret root.

Definition replace (new_root : value) : M value :=
  empty ← is_empty;
  if empty then ret VNone
  else
    to_return ← heap_getitem 0;
    heap_setitem 0 new_root;;
    _heapify_down 0;;
    ret to_return.

Definition update (old_elem new_elem : value) : M bool :=
  found ← contains old_elem;
  if negb found then ret false
  else
    i ← heap_index old_elem;
    heap_setitem i new_elem;;
    up ← or_ (and_ (eval (py_order OpGt new_elem old_elem)) (read max_heap))
             (and_ (eval (py_order OpLt new_elem old_elem)) (not_ (read max_heap)));
    (if up then _heapify_up i else _heapify_down i);;
    ret true.

Definition clear : M unit := set_heap [].

(** The argument of [build_heap]: a list, or some other object. *)
Inductive pyarg : Type :=
  | AList (l : list value)
  | AOther (v : value).

(** The first [for] loop of [build_heap], with its local variable. *)
Fixpoint build_heap_check (potential_type : option pytype) (elements : list value) : M unit :=
  match elements with
  | [] => ret tt
  | elem :: rest =>
      ok ← _is_valid_type elem;
      if negb ok then
        t ← read type;
        match t with
        | Some ty => raise (TypeError (MustBeOfType ty (type_of elem)))
        | None => raise (TypeError (UnsupportedType (type_of elem)))
        end
      else
        match potential_type with
        | Some pt =>
            if negb (bool_decide (type_of elem = pt))
            then raise (TypeError (BatchMismatch pt (type_of elem)))
            else build_heap_check potential_type rest
        | None => build_heap_check (Some (type_of elem)) rest
        end
  end.

(** The second [for] loop of [build_heap].  ([elements] is taken to be
    a list of its own, not [self.heap] itself.) *)
Fixpoint build_heap_add (elements : list value) : M unit :=
  match elements with
  | [] => ret tt
  | elem :: rest => add elem;; build_heap_add rest
  end.

Definition build_heap (elements : pyarg) : M unit :=
  match elements with
  | AOther _ => raise (TypeError ExpectedList)
  | AList l => build_heap_check None l;; build_heap_add l
  end.

(** ** Notions the properties are stated with *)

(** The object a constructor call without arguments other than the
    ordering flag gives. *)
Definition fresh (max_heap : bool) : BinaryHeap := mkBinaryHeap [] max_heap None.

(** The comparison a parent must pass against each child: [>=] in a
    max-heap, [<=] in a min-heap. *)
Definition dominates (self : BinaryHeap) (x y : value) : Prop :=
  py_order (if max_heap self then OpGe else OpLe) x y = Return true.

(** Heap-order invariant over the whole element list. *)
Definition heap_order (self : BinaryHeap) : Prop :=
  ∀ (i c : nat) (x y : value),
    c = (2 * i + 1)%nat ∨ c = (2 * i + 2)%nat →
    heap self !! i = Some x → heap self !! c = Some y →
    dominates self x y.

(** Type-homogeneity for the category [t]: the heap is fixed to [t] and
    every element has that type. *)
Definition homogeneous (t : pytype) (self : BinaryHeap) : Prop :=
  type self = Some t ∧ Forall (λ v, type_of v = t) (heap self).

(** A call is atomic with respect to the exceptions [E] when it leaves
    the object untouched whenever it raises one of them. *)
Definition atomic_wrt (E : exn → Prop) {A} (m : M A) (self : BinaryHeap) : Prop :=
  ∀ e self', m self = (Raise e, self') → E e → self' = self.

Definition any_error (e : exn) : Prop := True.

(** The messages of the [TypeError]s raised by validation of the input,
    as opposed to those of a failed comparison. *)
Definition validation_msg (m : type_msg) : Prop :=
  match m with
  | MustBeOfType _ _ | UnsupportedType _ | BatchMismatch _ _ | ExpectedList => True
  | InvalidElemType | NotSupportedBetween _ _ _ => False
  end.

(** A client's public mutating calls, and a script of them. *)
Inductive call : Type :=
  | Add (elem : value)
  | Poll
  | Remove (elem : value)
  | Replace (new_root : value)
  | Update (old_elem new_elem : value).

Definition do_call (c : call) : M unit :=
  match c with
  | Add elem => add elem
  | Poll => poll;; ret tt
  | Remove elem => remove elem;; ret tt
  | Replace new_root => replace new_root;; ret tt
  | Update old_elem new_elem => update old_elem new_elem;; ret tt
  end.

Fixpoint do_calls (cs : list call) : M unit :=
  match cs with
  | [] => ret tt
  | c :: cs' => do_call c;; do_calls cs'
  end.

(** [n] successive calls of [poll], collecting what they return. *)
Fixpoint poll_times (n : nat) : M (list value) :=
  match n with
  | O => ret []
  | S n' => x ← poll; xs ← poll_times n'; ret (x :: xs)
  end.

(** Computations that only inspect the object: the state they leave is
    the state they found, and they contain no loop. *)
Definition readonly {A} (m : M A) : Prop :=
  ∀ self, (m self).2 = self ∧ (m self).1 ≠ OutOfFuel.

(** [self'] holds the same number of elements as [self], all of them
    taken from [self], under the same flag and type. *)
Definition rearranged (self self' : BinaryHeap) : Prop :=
  length (heap self') = length (heap self)
  ∧ (∀ x, x ∈ heap self' → x ∈ heap self)
  ∧ max_heap self' = max_heap self
  ∧ type self' = type self.

Definition shuffles {A} (m : M A) : Prop := ∀ self, rearranged self (m self).2.

(** The two [while] loops apart, no code can run out of budget; a
    computation is total when it returns or raises from every state. *)
Definition total {A} (m : M A) : Prop := ∀ self, (m self).1 ≠ OutOfFuel.

(** Every exception the computation can raise satisfies [E]. *)
Definition raises_only (E : exn → Prop) {A} (m : M A) : Prop :=
  ∀ self e self', m self = (Raise e, self') → E e.

(** The exceptions of validation. *)
Definition validation_error (e : exn) : Prop :=
  match e with TypeError m => validation_msg m | _ => False end.

(** An invariant [I] of the object across a computation, with what is
    known of the value it returns. *)
Definition keeps (I : BinaryHeap → Prop) {A} (m : M A) (R : A → Prop) : Prop :=
  ∀ self, I self →
    I (m self).2 ∧ ∀ a, (m self).1 = Return a → R a.

(** ** Notions of the further properties *)

(** The types whose values Python orders totally. *)
Definition ordered_type (t : pytype) : Prop := t = TInt ∨ t = TBool ∨ t = TStr.

(** [x <= y], for operands that Python can order. *)
Definition vle (x y : value) : Prop :=
  ∃ c, py_compare x y = Some (Some c) ∧ c ≠ Gt.

(** [c] is the index of a child of the node at index [i]. *)
Definition is_child (i c : nat) : Prop := c = (2 * i + 1)%nat ∨ c = (2 * i + 2)%nat.

(** [x] may sit above [y]: [dominates], for a given ordering flag. *)
Definition above (mh : bool) (x y : value) : Prop :=
  py_order (if mh then OpGe else OpLe) x y = Return true.

(** Heap order everywhere but on the parent-child pairs [bad]. *)
Definition ordered_except (mh : bool) (l : list value) (bad : nat → nat → Prop) : Prop :=
  ∀ i c x y, is_child i c → l !! i = Some x → l !! c = Some y → ¬ bad i c → above mh x y.

(** The parent of [k] dominates the children of [k]. *)
Definition bridged (mh : bool) (l : list value) (k : nat) : Prop :=
  ∀ p c x y, is_child p k → is_child k c → l !! p = Some x → l !! c = Some y → above mh x y.

(** What sift-up from [k] starts from: only the pair above [k] may be out of order. *)
Definition up_inv (mh : bool) (l : list value) (k : nat) : Prop :=
  ordered_except mh l (λ _ c, c = k) ∧ bridged mh l k.

(** What sift-down from [k] starts from: only the pairs below [k] may be out of order. *)
Definition down_inv (mh : bool) (l : list value) (k : nat) : Prop :=
  ordered_except mh l (λ i _, i = k) ∧ bridged mh l k.

(** The list with the elements at [i] and [j] exchanged. *)
Definition swapped (l : list value) (i j : nat) : list value :=
  match l !! i, l !! j with
  | Some x, Some y => <[i := y]> (<[j := x]> l)
  | _, _ => l
  end.

(** Every element of the list has type [t]. *)
Definition typed (t : pytype) (l : list value) : Prop := Forall (λ v, type_of v = t) l.

(** [self'] holds the elements of [self], each as many times, under the
    same flag and type. *)
Definition permuted (self self' : BinaryHeap) : Prop :=
  heap self' ≡ₚ heap self
  ∧ max_heap self' = max_heap self
  ∧ type self' = type self.

Definition permutes {A} (m : M A) : Prop := ∀ self, permuted self (m self).2.

(** The heap holds values of type [t] only and takes values of type [t]:
    it is fixed to [t], or not fixed yet and empty. *)
Definition admits (t : pytype) (self : BinaryHeap) : Prop :=
  typed t (heap self) ∧ (type self = Some t ∨ (type self = None ∧ heap self = [])).

(** * Properties *)

(** ** Sanity checks of the comparison model *)

Example py_order_int_float : py_order OpLt (VInt 1) (VFloat 1.5) = Return true.
Proof. vm_compute. reflexivity. Qed.

Example py_order_big_int_float :
  py_order OpGt (VInt (2 ^ 53 + 1)) (VFloat 9007199254740992) = Return true.
Proof. vm_compute. reflexivity. Qed.

Example py_order_str : py_order OpLt (VStr "apple") (VStr "orange") = Return true.
Proof. vm_compute. reflexivity. Qed.

Example py_order_str_int :
  py_order OpLt (VStr "x") (VInt 2)
  = Raise (TypeError (NotSupportedBetween OpLt TStr TInt)).
Proof. reflexivity. Qed.

Example py_eq_int_float : py_eq (VInt 1) (VFloat 1) = true.
Proof. vm_compute. reflexivity. Qed.

Example py_eq_nan : py_eq (VFloat nan) (VFloat nan) = false.
Proof. vm_compute. reflexivity. Qed.

(** ** Running the monad *)

Section Monad.
Context {A B : Type}.
Implicit Types (m : M A) (f : A → M B).

Lemma bind_eq m f self :
  bind m f self =
    match m self with
    | (Return a, self') => f a self'
    | (Raise e, self') => (Raise e, self')
    | (OutOfFuel, self') => (OutOfFuel, self')
    end.
Proof. reflexivity. Qed.

Lemma bind_Return_inv m f self b self' :
  bind m f self = (Return b, self') →
  ∃ a self1, m self = (Return a, self1) ∧ f a self1 = (Return b, self').
Proof.
  rewrite bind_eq. destruct (m self) as [[a|e|] self1]; [eauto | done..].
Qed.

Lemma readonly_run m :
  readonly m → ∀ self, ∃ o, m self = (o, self) ∧ o ≠ OutOfFuel.
Proof.
  intros H self. destruct (H self) as [E1 E2].
  exists (m self).1. split; [|done].
  rewrite <- E1 at 3. by destruct (m self).
Qed.

Lemma readonly_bind m f :
  readonly m → (∀ a, readonly (f a)) → readonly (bind m f).
Proof.
  intros Hm Hf self. rewrite bind_eq.
  destruct (readonly_run m Hm self) as (o & -> & Ho).
  destruct o; [apply Hf | done..].
Qed.

Lemma shuffles_bind m f :
  shuffles m → (∀ a, shuffles (f a)) → shuffles (bind m f).
Proof.
  intros Hm Hf self. rewrite bind_eq.
  specialize (Hm self). destruct (m self) as [[a|e|] self1]; simpl in *; [|done..].
  specialize (Hf a self1). destruct Hm as (?&?&?&?), Hf as (?&?&?&?).
  repeat split; [congruence | auto | congruence..].
Qed.

Lemma readonly_shuffles m : readonly m → shuffles m.
Proof. intros H self. destruct (H self) as [-> _]. by repeat split. Qed.
End Monad.

(** ** Read-only computations *)

Lemma readonly_ret {A} (a : A) : readonly (ret a).
Proof. done. Qed.

Lemma readonly_raise {A} (e : exn) : readonly (raise (A:=A) e).
Proof. done. Qed.

Lemma readonly_read {A} (f : BinaryHeap → A) : readonly (read f).
Proof. done. Qed.

Lemma readonly_py_order op v w : readonly (eval (py_order op v w)).
Proof. intros self. split; [done|]. simpl. unfold py_order. by destruct (py_compare v w). Qed.

Lemma readonly_heap_getitem i : readonly (heap_getitem i).
Proof.
  intros self. unfold heap_getitem.
  destruct (py_index _ i) as [k|]; [|done]. by destruct (heap self !! k).
Qed.

Lemma readonly_heap_index elem : readonly (heap_index elem).
Proof. intros self. unfold heap_index. by destruct (find_index elem (heap self)). Qed.

(** Decompose a goal [readonly m] along the syntax of [m]. *)
Ltac readonly_step :=
  match goal with
  | |- readonly (bind _ _) => apply readonly_bind; [|intros ?]
  | |- readonly (ret _) => apply readonly_ret
  | |- readonly (raise _) => apply readonly_raise
  | |- readonly (read _) => apply readonly_read
  | |- readonly (eval (py_order _ _ _)) => apply readonly_py_order
  | |- readonly (heap_getitem _) => apply readonly_heap_getitem
  | |- readonly (heap_index _) => apply readonly_heap_index
  | |- readonly (if ?b then _ else _) => destruct b
  | |- readonly (match ?x with _ => _ end) => destruct x
  | |- readonly (let _ := _ in _) => cbv zeta
  | H : readonly ?m |- readonly ?m => exact H
  | H : ∀ x, readonly (?f x) |- readonly (?f _) => apply H
  end.
Ltac readonly_auto := repeat readonly_step.

Lemma readonly_and a b : readonly a → readonly b → readonly (and_ a b).
Proof. intros. unfold and_. readonly_auto. Qed.

Lemma readonly_or a b : readonly a → readonly b → readonly (or_ a b).
Proof. intros. unfold or_. readonly_auto. Qed.

Lemma readonly_not a : readonly a → readonly (not_ a).
Proof. intros. unfold not_. readonly_auto. Qed.

Lemma readonly_size : readonly size.
Proof. unfold size. readonly_auto. Qed.

Lemma readonly_is_empty : readonly is_empty.
Proof. unfold is_empty. pose proof readonly_size. readonly_auto. Qed.

Lemma readonly_contains elem : readonly (contains elem).
Proof. unfold contains. readonly_auto. Qed.

Lemma readonly_is_valid_type elem : readonly (_is_valid_type elem).
Proof. unfold _is_valid_type. readonly_auto. Qed.

Lemma readonly_left_child i : readonly (left_child i).
Proof. unfold left_child. pose proof readonly_size. readonly_auto. Qed.

Lemma readonly_right_child i : readonly (right_child i).
Proof. unfold right_child. pose proof readonly_size. readonly_auto. Qed.

Lemma readonly_elem_vs_child op i child :
  (∀ j, readonly (child j)) → readonly (elem_vs_child op i child).
Proof. intros. unfold elem_vs_child. readonly_auto. Qed.

Lemma readonly_child_violates op i : readonly (child_violates op i).
Proof.
  unfold child_violates.
  apply readonly_or; apply readonly_and;
    first [ apply readonly_elem_vs_child;
            first [apply readonly_left_child | apply readonly_right_child]
          | pose proof readonly_left_child; pose proof readonly_right_child;
            readonly_auto ].
Qed.

Lemma readonly_check_child_invariance i : readonly (_check_child_invariance i).
Proof.
  unfold _check_child_invariance.
  pose proof readonly_size. pose proof (readonly_child_violates OpLt i).
  pose proof (readonly_child_violates OpGt i). readonly_auto.
Qed.

Lemma readonly_prefer_left left_i right_i : readonly (prefer_left left_i right_i).
Proof.
  unfold prefer_left.
  apply readonly_or; apply readonly_and; try apply readonly_not; readonly_auto.
Qed.

Lemma readonly_build_heap_check elements :
  ∀ potential_type, readonly (build_heap_check potential_type elements).
Proof.
  induction elements as [|elem rest IH]; intros pt; simpl; [apply readonly_ret|].
  pose proof (readonly_is_valid_type elem). readonly_auto; apply IH.
Qed.

(** ** The list primitives *)

Lemma size_run self : size self = (Return (Z.of_nat (length (heap self))), self).
Proof. reflexivity. Qed.

Lemma py_index_at_length len : py_index len (Z.of_nat len) = None.
Proof.
  unfold py_index. rewrite !bool_decide_eq_false_2; [done | lia..].
Qed.

Lemma heap_getitem_Return i self v self' :
  heap_getitem i self = (Return v, self') → self' = self ∧ v ∈ heap self.
Proof.
  unfold heap_getitem. destruct (py_index _ i) as [k|]; [|done].
  destruct (heap self !! k) as [w|] eqn:E; [|done].
  intros; simplify_eq. split; [done|]. by eapply list_elem_of_lookup_2.
Qed.

Lemma heap_setitem_frame i v self :
  let self' := (heap_setitem i v self).2 in
  length (heap self') = length (heap self)
  ∧ (∀ x, x ∈ heap self' → x = v ∨ x ∈ heap self)
  ∧ max_heap self' = max_heap self ∧ type self' = type self.
Proof.
  unfold heap_setitem. destruct (py_index _ i) as [k|]; simpl; [|by auto].
  split; [by rewrite length_insert|]. split; [|done].
  intros x Hx. apply list_elem_of_lookup in Hx as [j Hj].
  destruct (decide (k = j)) as [->|Hne].
  - destruct (decide (j < length (heap self))%nat).
    + rewrite list_lookup_insert_eq in Hj by done. left. congruence.
    + rewrite list_insert_ge in Hj by lia. right. by eapply list_elem_of_lookup_2.
  - rewrite list_lookup_insert_ne in Hj by done. right. by eapply list_elem_of_lookup_2.
Qed.

Lemma heap_setitem_total i v self : (heap_setitem i v self).1 ≠ OutOfFuel.
Proof. unfold heap_setitem. by destruct (py_index _ i). Qed.

Lemma heap_setitem_at_length v self :
  heap_setitem (Z.of_nat (length (heap self))) v self
  = (Raise (IndexError ListAssignmentOutOfRange), self).
Proof. unfold heap_setitem. by rewrite py_index_at_length. Qed.

Lemma heap_pop_snoc l x mh t :
  heap_pop (mkBinaryHeap (l ++ [x]) mh t) = (Return x, mkBinaryHeap l mh t).
Proof. unfold heap_pop. simpl. by rewrite last_snoc, removelast_last. Qed.

(** ** The repair loops only move elements around *)

Lemma rearranged_refl self : rearranged self self.
Proof. by repeat split. Qed.

Lemma rearranged_trans s1 s2 s3 : rearranged s1 s2 → rearranged s2 s3 → rearranged s1 s3.
Proof.
  intros (?&?&?&?) (?&?&?&?). repeat split; [congruence | auto | congruence..].
Qed.

Lemma shuffles_swap_with j i : shuffles (swap_with j i).
Proof.
  intros self. unfold swap_with. rewrite bind_eq.
  destruct (readonly_run _ (readonly_heap_getitem j) self) as (o & Ej & _).
  rewrite Ej. destruct o as [temp| |]; [|apply rearranged_refl..].
  apply heap_getitem_Return in Ej as [_ Htemp]. rewrite bind_eq.
  destruct (readonly_run _ (readonly_heap_getitem i) self) as (o & Ei & _).
  rewrite Ei. destruct o as [x| |]; [|apply rearranged_refl..].
  apply heap_getitem_Return in Ei as [_ Hx]. rewrite bind_eq.
  pose proof (heap_setitem_frame j x self) as (L1 & I1 & M1 & T1).
  assert (rearranged self (heap_setitem j x self).2) as R1.
  { repeat split; [done | | done..]. intros y Hy. by destruct (I1 y Hy) as [->|]. }
  destruct (heap_setitem j x self) as [[[]| |] s1]; simpl in *; [|done..].
  pose proof (heap_setitem_frame i temp s1) as (L2 & I2 & M2 & T2).
  repeat split; [congruence | | congruence..].
  intros y Hy. destruct (I2 y Hy) as [->|Hy1]; [done|].
  by destruct (I1 y Hy1) as [->|].
Qed.

Lemma swap_with_total j i self : (swap_with j i self).1 ≠ OutOfFuel.
Proof.
  unfold swap_with. rewrite bind_eq.
  destruct (readonly_run _ (readonly_heap_getitem j) self) as (o & -> & Ho).
  destruct o as [temp| |]; [|done..]. rewrite bind_eq.
  destruct (readonly_run _ (readonly_heap_getitem i) self) as (o & -> & Ho').
  destruct o as [x| |]; [|done..]. rewrite bind_eq.
  pose proof (heap_setitem_total j x self).
  destruct (heap_setitem j x self) as [[[]| |] s1]; [|done..].
  apply heap_setitem_total.
Qed.

Lemma shuffles_heapify_up_loop fuel : ∀ i parent_i, shuffles (heapify_up_loop fuel i parent_i).
Proof.
  induction fuel as [|fuel IH]; intros i parent_i; simpl.
  { intros self. apply rearranged_refl. }
  apply shuffles_bind.
  { apply readonly_shuffles, readonly_and; [apply readonly_ret|].
    apply readonly_not, readonly_check_child_invariance. }
  intros [|]; [|apply readonly_shuffles, readonly_ret].
  apply shuffles_bind; [apply shuffles_swap_with | intros _; apply IH].
Qed.

Lemma shuffles_heapify_down_loop fuel : ∀ i, shuffles (heapify_down_loop fuel i).
Proof.
  induction fuel as [|fuel IH]; intros i; simpl.
  { intros self. apply rearranged_refl. }
  apply shuffles_bind.
  { apply readonly_shuffles, readonly_not, readonly_check_child_invariance. }
  intros [|]; [|apply readonly_shuffles, readonly_ret].
  apply shuffles_bind; [apply readonly_shuffles, readonly_prefer_left|].
  intros [|]; (apply shuffles_bind; [apply shuffles_swap_with | intros _; apply IH]).
Qed.

Lemma shuffles_heapify_up i : shuffles (_heapify_up i).
Proof.
  unfold _heapify_up. apply shuffles_bind; [apply readonly_shuffles, readonly_size|].
  intros n. destruct (_ || _); [apply readonly_shuffles, readonly_raise|].
  apply shuffles_heapify_up_loop.
Qed.

Lemma shuffles_heapify_down i : shuffles (_heapify_down i).
Proof.
  unfold _heapify_down. apply shuffles_bind; [apply readonly_shuffles, readonly_size|].
  intros n. destruct (_ || _); [apply readonly_shuffles, readonly_raise|].
  apply shuffles_heapify_down_loop.
Qed.

(** ** The loops end within their budget *)

Lemma child_violates_negative op i self :
  i < 0 → child_violates op i self = (Raise (IndexError IndexOutOfBounds), self).
Proof.
  intros Hi. unfold child_violates, or_, and_, left_child.
  rewrite !bind_eq, size_run.
  by rewrite (proj2 (Z.ltb_lt i 0) Hi).
Qed.

Lemma check_child_invariance_Return i self b self' :
  _check_child_invariance i self = (Return b, self') →
  0 ≤ i < Z.of_nat (length (heap self)).
Proof.
  unfold _check_child_invariance. rewrite bind_eq, size_run.
  destruct (Z.leb_spec (Z.of_nat (length (heap self))) i); [done|].
  destruct (Z.lt_ge_cases i 0) as [Hneg|]; [|lia].
  rewrite bind_eq. unfold read at 1.
  destruct (max_heap self); rewrite bind_eq, child_violates_negative by done; done.
Qed.

Lemma heapify_up_loop_total fuel :
  ∀ i parent_i self,
    (0 < fuel)%nat → parent_i + 1 < Z.of_nat fuel →
    (heapify_up_loop fuel i parent_i self).1 ≠ OutOfFuel.
Proof.
  induction fuel as [|fuel IH]; intros i parent_i self Hpos Hfuel; [lia|].
  simpl. rewrite bind_eq. unfold and_ at 1. rewrite bind_eq.
  unfold ret at 1. destruct (Z.leb_spec 0 parent_i) as [Hp|Hp]; [|done].
  unfold not_ at 1. rewrite bind_eq.
  destruct (readonly_run _ (readonly_check_child_invariance parent_i) self)
    as (o & -> & Ho).
  destruct o as [[|]| |]; [done| |done..]. simpl. rewrite bind_eq.
  pose proof (swap_with_total parent_i i self).
  destruct (swap_with parent_i i self) as [[[]| |] s1]; [|done..].
  apply IH; [lia|]. assert ((parent_i - 1) / 2 < parent_i); [|lia].
  apply Z.div_lt_upper_bound; lia.
Qed.

Lemma heapify_down_loop_total fuel :
  ∀ i self,
    (0 < fuel)%nat → Z.of_nat (length (heap self)) - i < Z.of_nat fuel →
    (heapify_down_loop fuel i self).1 ≠ OutOfFuel.
Proof.
  induction fuel as [|fuel IH]; intros i self Hpos Hfuel; [lia|].
  simpl. rewrite bind_eq. unfold not_ at 1. rewrite bind_eq.
  destruct (readonly_run _ (readonly_check_child_invariance i) self)
    as (o & E & Ho). rewrite E.
  destruct o as [b| |]; [|done..].
  apply check_child_invariance_Return in E as Hi.
  destruct b; [done|]. simpl. rewrite bind_eq.
  destruct (readonly_run _ (readonly_prefer_left (i * 2 + 1) (i * 2 + 2)) self)
    as (o & -> & Ho').
  destruct o as [[|]| |]; [| |done..]; rewrite bind_eq.
  - pose proof (swap_with_total (i * 2 + 1) i self).
    pose proof (shuffles_swap_with (i * 2 + 1) i self) as (L & _).
    destruct (swap_with (i * 2 + 1) i self) as [[[]| |] s1]; [|done..].
    simpl in L. apply IH; lia.
  - pose proof (swap_with_total (i * 2 + 2) i self).
    pose proof (shuffles_swap_with (i * 2 + 2) i self) as (L & _).
    destruct (swap_with (i * 2 + 2) i self) as [[[]| |] s1]; [|done..].
    simpl in L. apply IH; lia.
Qed.

Lemma heapify_up_total i self : (_heapify_up i self).1 ≠ OutOfFuel.
Proof.
  unfold _heapify_up. rewrite bind_eq, size_run.
  destruct (Z.ltb_spec i 0); [done|].
  destruct (Z.leb_spec (Z.of_nat (length (heap self))) i); [done|].
  cbn [orb]. cbv zeta.
  apply heapify_up_loop_total; [lia|].
  assert ((i - 1) / 2 < i); [apply Z.div_lt_upper_bound; lia | lia].
Qed.

Lemma heapify_down_total i self : (_heapify_down i self).1 ≠ OutOfFuel.
Proof.
  unfold _heapify_down. rewrite bind_eq, size_run.
  destruct (Z.ltb_spec i 0); [done|].
  destruct (Z.leb_spec (Z.of_nat (length (heap self))) i); [done|].
  cbn [orb].
  apply heapify_down_loop_total; lia.
Qed.

(** ** Every method returns or raises *)

Lemma total_bind {A B} (m : M A) (f : A → M B) :
  total m → (∀ a, total (f a)) → total (bind m f).
Proof.
  intros Hm Hf self. rewrite bind_eq. specialize (Hm self).
  destruct (m self) as [[a| |] s1]; [apply Hf | done..].
Qed.

Lemma readonly_total {A} (m : M A) : readonly m → total m.
Proof. intros H self. apply H. Qed.

Lemma total_heap_pop : total heap_pop.
Proof. intros self. unfold heap_pop. by destruct (last (heap self)). Qed.

Ltac total_step :=
  match goal with
  | |- total (bind _ _) => apply total_bind; [|intros ?]
  | |- total (if ?b then _ else _) => destruct b
  | |- total (match ?x with _ => _ end) => destruct x
  | |- total (let _ := _ in _) => cbv zeta
  | |- total (_heapify_up _) => exact (heapify_up_total _)
  | |- total (_heapify_down _) => exact (heapify_down_total _)
  | |- total (heap_setitem _ _) => exact (heap_setitem_total _ _)
  | |- total heap_pop => exact total_heap_pop
  | |- total (heap_append _) => by intros ?
  | |- total (set_type _) => by intros ?
  | |- total (set_heap _) => by intros ?
  | |- total (or_ _ _) => apply readonly_total, readonly_or
  | |- total (and_ _ _) => apply readonly_total, readonly_and
  | |- total (not_ _) => apply readonly_total, readonly_not
  | |- total _ => apply readonly_total
  | |- readonly size => exact readonly_size
  | |- readonly is_empty => exact readonly_is_empty
  | |- readonly (contains _) => apply readonly_contains
  | |- readonly (_is_valid_type _) => apply readonly_is_valid_type
  | |- readonly (and_ _ _) => apply readonly_and
  | |- readonly (not_ _) => apply readonly_not
  | |- readonly _ => readonly_step
  end.
Ltac total_auto := repeat total_step.

Lemma total_add elem : total (add elem).
Proof. unfold add. total_auto. Qed.

Lemma total_poll : total poll.
Proof. unfold poll. total_auto. Qed.

Lemma total_remove elem : total (remove elem).
Proof. unfold remove. total_auto. Qed.

Lemma total_replace new_root : total (replace new_root).
Proof. unfold replace. total_auto. Qed.

Lemma total_update old_elem new_elem : total (update old_elem new_elem).
Proof. unfold update. total_auto. Qed.

Lemma total_build_heap_add elements : total (build_heap_add elements).
Proof.
  induction elements as [|elem rest IH]; simpl; [by intros ?|].
  apply total_bind; [apply total_add | intros _; apply IH].
Qed.

Lemma total_build_heap elements : total (build_heap elements).
Proof.
  destruct elements as [l|v]; simpl; [|by intros ?].
  apply total_bind; [|intros _; apply total_build_heap_add].
  apply readonly_total, readonly_build_heap_check.
Qed.

Lemma total_do_call c : total (do_call c).
Proof.
  destruct c; simpl;
    [apply total_add | apply total_bind; [|by intros ? ?]..].
  - apply total_poll.
  - apply total_remove.
  - apply total_replace.
  - apply total_update.
Qed.

Lemma total_poll_times n : total (poll_times n).
Proof.
  induction n as [|n IH]; simpl; [by intros ?|].
  apply total_bind; [apply total_poll|]. intros x.
  apply total_bind; [apply IH | by intros ? ?].
Qed.

(** ** What the methods do, step by step *)

Lemma contains_run elem self :
  contains elem self = (Return (existsb (λ x, py_eq x elem) (heap self)), self).
Proof. reflexivity. Qed.

Lemma find_index_Some_existsb elem l k :
  find_index elem l = Some k → existsb (λ x, py_eq x elem) l = true.
Proof.
  revert k. induction l as [|x l IH]; intros k; simpl; [done|].
  destruct (py_eq x elem); [done|]. simpl.
  destruct (find_index elem l) as [j|]; [eauto | done].
Qed.

Lemma is_valid_type_run elem self :
  _is_valid_type elem self
  = (Return (match type self with
             | None => isinstance elem COMPARABLE_TYPES
             | Some t => bool_decide (t = type_of elem)
             end), self).
Proof.
  unfold _is_valid_type. rewrite bind_eq. unfold read at 1.
  generalize (isinstance elem COMPARABLE_TYPES). intros b.
  destruct (type self) as [t|]; repeat case_bool_decide; simplify_eq; try done.
  by destruct b.
Qed.

(** [add] rejects the element: a validation error, nothing changed. *)
Lemma add_rejected elem self :
  _is_valid_type elem self = (Return false, self) →
  ∃ m, validation_msg m ∧ add elem self = (Raise (TypeError m), self).
Proof.
  intros E. unfold add. rewrite bind_eq, E. cbn [negb]. rewrite 2!bind_eq.
  unfold read at 1. destruct (type self); eexists; (split; [|reflexivity]); done.
Qed.

(** [add] accepts the element: it is appended, the type is the
    element's, and the rest is the repair from the last position. *)
Lemma add_accepted elem self :
  _is_valid_type elem self = (Return true, self) →
  add elem self
  = (n ← size; if 1 <? n then n ← size; let i := n - 1 in _heapify_up i else ret tt)
      (mkBinaryHeap (heap self ++ [elem]) (max_heap self) (Some (type_of elem))).
Proof.
  intros E. unfold add. rewrite bind_eq, E. cbn [negb]. rewrite 2!bind_eq.
  rewrite is_valid_type_run in E. unfold read at 1.
  destruct (type self) as [t|] eqn:Ht.
  - assert (t = type_of elem) as -> by (by case_bool_decide; simplify_eq).
    unfold ret at 1. rewrite bind_eq. unfold heap_append at 1, set_heap at 1.
    by rewrite Ht.
  - unfold set_type at 1. rewrite bind_eq. by unfold heap_append at 1, set_heap at 1.
Qed.

Lemma add_after_validation elem self :
  _is_valid_type elem self = (Return true, self) →
  rearranged
    (mkBinaryHeap (heap self ++ [elem]) (max_heap self) (Some (type_of elem)))
    (add elem self).2.
Proof.
  intros E. rewrite (add_accepted _ _ E). set (s1 := mkBinaryHeap _ _ _).
  rewrite bind_eq, size_run. destruct (1 <? _); [|apply rearranged_refl].
  rewrite bind_eq, size_run. cbv zeta. apply shuffles_heapify_up.
Qed.

Lemma add_Return elem self self' :
  add elem self = (Return tt, self') →
  _is_valid_type elem self = (Return true, self)
  ∧ rearranged
      (mkBinaryHeap (heap self ++ [elem]) (max_heap self) (Some (type_of elem))) self'.
Proof.
  intros H. pose proof (is_valid_type_run elem self) as E.
  destruct (match type self with None => _ | Some _ => _ end) eqn:Hok.
  - split; [done|]. pose proof (add_after_validation _ _ E) as R. by rewrite H in R.
  - destruct (add_rejected _ _ E) as (m & _ & Em). congruence.
Qed.

(** ** Type-homogeneity as an invariant *)

Section Homogeneity.
Variable t : pytype.

Lemma keeps_bind I {A B} (m : M A) (f : A → M B) R R' :
  keeps I m R → (∀ a, R a → keeps I (f a) R') → keeps I (bind m f) R'.
Proof.
  intros Hm Hf self HI. rewrite bind_eq. destruct (Hm self HI) as [HI1 HR].
  destruct (m self) as [[a| |] s1]; simpl in *; [|done..].
  by apply Hf; [apply HR|].
Qed.

Lemma keeps_ret I {A} (a : A) (R : A → Prop) : R a → keeps I (ret a) R.
Proof. intros HR self HI. split; [done|]. simpl. by intros ? [= <-]. Qed.

Lemma keeps_raise I {A} e (R : A → Prop) : keeps I (raise e) R.
Proof. by intros self HI. Qed.

Lemma keeps_readonly I {A} (m : M A) : readonly m → keeps I m (λ _, True).
Proof. intros H self HI. destruct (H self) as [-> _]. done. Qed.

Lemma homogeneous_rearranged self self' :
  rearranged self self' → homogeneous t self → homogeneous t self'.
Proof.
  intros (_ & Hin & _ & Ht) [Hty Hall]. split; [congruence|].
  rewrite Forall_forall in *. auto.
Qed.

Lemma keeps_shuffles {A} (m : M A) :
  shuffles m → keeps (homogeneous t) m (λ _, True).
Proof. intros H self HI. split; [|done]. by eapply homogeneous_rearranged. Qed.

Lemma keeps_heap_getitem i :
  keeps (homogeneous t) (heap_getitem i) (λ v, type_of v = t).
Proof.
  intros self HI. destruct (readonly_heap_getitem i self) as [E _].
  split; [by rewrite E|]. intros v Hv.
  destruct (heap_getitem i self) as [o s1] eqn:Eg. simpl in *. subst o.
  apply heap_getitem_Return in Eg as [_ Hin].
  destruct HI as [_ Hall]. rewrite Forall_forall in Hall. auto.
Qed.

Lemma keeps_heap_pop : keeps (homogeneous t) heap_pop (λ v, type_of v = t).
Proof.
  intros [l mh ty] [Hty Hall]. simpl in *. unfold heap_pop. simpl.
  destruct l as [|x l _] using rev_ind; [done|].
  rewrite last_snoc, removelast_last. simpl.
  apply Forall_app in Hall as [Hl Hx]. split; [done|].
  intros a [= <-]. by inversion Hx.
Qed.

Lemma keeps_heap_setitem i v :
  type_of v = t → keeps (homogeneous t) (heap_setitem i v) (λ _, True).
Proof.
  intros Hv self [Hty Hall]. split; [|done].
  destruct (heap_setitem_frame i v self) as (_ & Hin & _ & Ht).
  split; [congruence|]. rewrite Forall_forall in *.
  intros x Hx. destruct (Hin x Hx) as [->|]; auto.
Qed.

Ltac keeps_step :=
  match goal with
  | |- keeps _ (bind (heap_getitem _) _) _ =>
      eapply keeps_bind; [apply keeps_heap_getitem | intros ? ?]
  | |- keeps _ (bind heap_pop _) _ =>
      eapply keeps_bind; [apply keeps_heap_pop | intros ? ?]
  | |- keeps _ (bind (heap_setitem _ _) _) _ =>
      eapply keeps_bind; [by apply keeps_heap_setitem | intros ? _]
  | |- keeps _ (bind (_heapify_down _) _) _ =>
      eapply keeps_bind; [apply keeps_shuffles, shuffles_heapify_down | intros ? _]
  | |- keeps _ (bind (_heapify_up _) _) _ =>
      eapply keeps_bind; [apply keeps_shuffles, shuffles_heapify_up | intros ? _]
  | |- keeps _ (bind (if ?b then _ else _) _) _ => destruct b
  | |- keeps _ (bind size _) _ =>
      eapply keeps_bind; [apply keeps_readonly, readonly_size | intros ? _]
  | |- keeps _ (bind is_empty _) _ =>
      eapply keeps_bind; [apply keeps_readonly, readonly_is_empty | intros ? _]
  | |- keeps _ (bind (contains _) _) _ =>
      eapply keeps_bind; [apply keeps_readonly, readonly_contains | intros ? _]
  | |- keeps _ (bind (heap_index _) _) _ =>
      eapply keeps_bind; [apply keeps_readonly, readonly_heap_index | intros ? _]
  | |- keeps _ (bind (or_ _ _) _) _ =>
      eapply keeps_bind;
      [apply keeps_readonly, readonly_or; apply readonly_and;
       try apply readonly_not; readonly_auto | intros ? _]
  | |- keeps _ (if ?b then _ else _) _ => destruct b
  | |- keeps _ (ret _) _ => by apply keeps_ret
  end.
Ltac keeps_auto := repeat keeps_step.

Lemma keeps_poll : keeps (homogeneous t) poll (λ _, True).
Proof. unfold poll. keeps_auto. Qed.

Lemma keeps_remove elem : keeps (homogeneous t) (remove elem) (λ _, True).
Proof. unfold remove. keeps_auto. Qed.

Lemma keeps_replace new_root :
  type_of new_root = t → keeps (homogeneous t) (replace new_root) (λ _, True).
Proof. intros. unfold replace. keeps_auto. Qed.

Lemma keeps_update old_elem new_elem :
  type_of new_elem = t → keeps (homogeneous t) (update old_elem new_elem) (λ _, True).
Proof. intros. unfold update. keeps_auto. Qed.

Lemma keeps_add elem : keeps (homogeneous t) (add elem) (λ _, True).
Proof.
  intros self HI. split; [|done]. pose proof (is_valid_type_run elem self) as E.
  destruct HI as [Hty Hall]. rewrite Hty in E. case_bool_decide as Ht.
  - eapply homogeneous_rearranged; [by apply add_after_validation|].
    split; simpl; [by rewrite Ht|]. apply Forall_app. by repeat constructor.
  - destruct (add_rejected _ _ E) as (m & _ & ->). done.
Qed.

Lemma keeps_build_heap_add elements :
  keeps (homogeneous t) (build_heap_add elements) (λ _, True).
Proof.
  induction elements as [|elem rest IH]; simpl; [by apply keeps_ret|].
  eapply keeps_bind; [apply keeps_add | intros _ _; apply IH].
Qed.

Lemma keeps_build_heap elements :
  keeps (homogeneous t) (build_heap elements) (λ _, True).
Proof.
  destruct elements as [l|v]; simpl; [|apply keeps_raise].
  eapply keeps_bind; [apply keeps_readonly, readonly_build_heap_check|].
  intros _ _. apply keeps_build_heap_add.
Qed.

Lemma keeps_clear : keeps (homogeneous t) clear (λ _, True).
Proof. intros self [Hty _]. by repeat split. Qed.

End Homogeneity.

(** ** Once the input is validated, no validation error *)

Lemma raises_only_bind E {A B} (m : M A) (f : A → M B) :
  raises_only E m → (∀ a, raises_only E (f a)) → raises_only E (bind m f).
Proof.
  intros Hm Hf self e self'. rewrite bind_eq.
  destruct (m self) as [[a|e'|] s1] eqn:Em; [apply Hf | | done].
  intros [= <- <-]. by eapply Hm.
Qed.

Lemma raises_only_py_order op v w :
  raises_only (λ e, ¬ validation_error e) (eval (py_order op v w)).
Proof.
  intros self e self'. unfold eval, py_order.
  destruct (py_compare v w); [done|]. intros [= <- <-]. by intros [].
Qed.

Lemma raises_only_heap_getitem i :
  raises_only (λ e, ¬ validation_error e) (heap_getitem i).
Proof.
  intros self e self'. unfold heap_getitem.
  destruct (py_index _ i) as [k|]; [destruct (heap self !! k)|];
    intros [= <- <-]; by intros [].
Qed.

Lemma raises_only_heap_setitem i v :
  raises_only (λ e, ¬ validation_error e) (heap_setitem i v).
Proof.
  intros self e self'. unfold heap_setitem.
  destruct (py_index _ i) as [k|]; [done|]. intros [= <- <-]. by intros [].
Qed.

Ltac raises_step :=
  match goal with
  | |- raises_only _ (bind _ _) => apply raises_only_bind; [|intros ?]
  | |- raises_only _ (ret _) => by intros ? ? ?
  | |- raises_only _ (read _) => by intros ? ? ?
  | |- raises_only _ (raise _) => by intros ? ? ? [= <- <-]; intros []
  | |- raises_only _ (eval (py_order _ _ _)) => apply raises_only_py_order
  | |- raises_only _ (heap_getitem _) => apply raises_only_heap_getitem
  | |- raises_only _ (heap_setitem _ _) => apply raises_only_heap_setitem
  | |- raises_only _ (if ?b then _ else _) => destruct b
  | |- raises_only _ (let _ := _ in _) => cbv zeta
  | H : raises_only _ ?m |- raises_only _ ?m => exact H
  | H : ∀ x y, raises_only _ (?f x y) |- raises_only _ (?f _ _) => apply H
  | H : ∀ x, raises_only _ (?f x) |- raises_only _ (?f _) => apply H
  end.
Ltac raises_auto := repeat raises_step.

Lemma raises_only_check_child_invariance i :
  raises_only (λ e, ¬ validation_error e) (_check_child_invariance i).
Proof.
  unfold _check_child_invariance, child_violates, elem_vs_child, or_, and_,
    left_child, right_child, size.
  raises_auto.
Qed.

Lemma raises_only_swap_with j i :
  raises_only (λ e, ¬ validation_error e) (swap_with j i).
Proof. unfold swap_with. raises_auto. Qed.

Lemma raises_only_heapify_up_loop fuel :
  ∀ i parent_i,
    raises_only (λ e, ¬ validation_error e) (heapify_up_loop fuel i parent_i).
Proof.
  induction fuel as [|fuel IH]; intros i parent_i; simpl; [by intros ? ? ?|].
  pose proof raises_only_check_child_invariance.
  pose proof raises_only_swap_with.
  unfold and_, not_. raises_auto.
Qed.

Lemma raises_only_heapify_up i :
  raises_only (λ e, ¬ validation_error e) (_heapify_up i).
Proof.
  unfold _heapify_up, size. pose proof raises_only_heapify_up_loop. raises_auto.
  apply raises_only_heapify_up_loop.
Qed.

Lemma raises_only_heapify_down_loop fuel :
  ∀ i, raises_only (λ e, ¬ validation_error e) (heapify_down_loop fuel i).
Proof.
  induction fuel as [|fuel IH]; intros i; simpl; [by intros ? ? ?|].
  pose proof raises_only_check_child_invariance.
  pose proof raises_only_swap_with.
  unfold prefer_left, or_, and_, not_. raises_auto.
Qed.

Lemma raises_only_heapify_down i :
  raises_only (λ e, ¬ validation_error e) (_heapify_down i).
Proof.
  unfold _heapify_down, size. raises_auto. apply raises_only_heapify_down_loop.
Qed.

Lemma raises_only_heap_pop : raises_only (λ e, ¬ validation_error e) heap_pop.
Proof.
  intros self e self'. unfold heap_pop.
  destruct (last (heap self)); [done|]. intros [= <- <-]. by intros [].
Qed.

Lemma raises_only_heap_index elem :
  raises_only (λ e, ¬ validation_error e) (heap_index elem).
Proof.
  intros self e self'. unfold heap_index.
  destruct (find_index elem (heap self)); [done|]. intros [= <- <-]. by intros [].
Qed.

Lemma raises_only_poll : raises_only (λ e, ¬ validation_error e) poll.
Proof.
  pose proof raises_only_heapify_down. pose proof raises_only_heap_pop.
  unfold poll, size. raises_auto.
Qed.

Lemma raises_only_remove elem : raises_only (λ e, ¬ validation_error e) (remove elem).
Proof.
  pose proof raises_only_heapify_down. pose proof raises_only_heap_pop.
  pose proof raises_only_heap_index.
  unfold remove, contains. raises_auto.
Qed.

Lemma raises_only_replace new_root :
  raises_only (λ e, ¬ validation_error e) (replace new_root).
Proof.
  pose proof raises_only_heapify_down.
  unfold replace, is_empty, size. raises_auto.
Qed.

Lemma raises_only_update old_elem new_elem :
  raises_only (λ e, ¬ validation_error e) (update old_elem new_elem).
Proof.
  pose proof raises_only_heapify_down. pose proof raises_only_heapify_up.
  pose proof raises_only_heap_index.
  unfold update, contains, or_, and_, not_. raises_auto.
Qed.

(** ** The validation loop of [build_heap] *)

Lemma build_heap_check_Raise elements :
  ∀ potential_type,
    raises_only validation_error (build_heap_check potential_type elements).
Proof.
  induction elements as [|elem rest IH]; intros pt self e self'; simpl; [done|].
  rewrite bind_eq, is_valid_type_run.
  destruct (match type self with None => _ | Some _ => _ end); cbn [negb].
  - destruct pt as [p|]; [|apply IH].
    case_bool_decide; cbn [negb]; [apply IH|]. by intros [= <- <-].
  - rewrite bind_eq. unfold read at 1. destruct (type self); by intros [= <- <-].
Qed.

Lemma build_heap_check_Return elements :
  ∀ potential_type self self',
    build_heap_check potential_type elements self = (Return tt, self') →
    Forall (λ x, _is_valid_type x self = (Return true, self)) elements
    ∧ ∃ t, Forall (λ x, type_of x = t) elements
           ∧ (∀ p, potential_type = Some p → p = t).
Proof.
  induction elements as [|elem rest IH]; intros pt self self'; simpl.
  { intros _. split; [done|]. destruct pt as [p|]; [exists p | exists TInt]; naive_solver. }
  rewrite bind_eq. pose proof (is_valid_type_run elem self) as E. rewrite E.
  destruct (match type self with None => _ | Some _ => _ end); cbn [negb].
  - destruct pt as [p|].
    + case_bool_decide as Hp; cbn [negb]; [|done]. intros H.
      apply IH in H as (Hv & t & Ht & Hpt). specialize (Hpt p eq_refl). subst t.
      split; [by constructor|]. exists p. split; [by constructor|]. by intros ? [= ->].
    + intros H. apply IH in H as (Hv & t & Ht & Hpt).
      specialize (Hpt _ eq_refl). subst t.
      split; [by constructor|]. exists (type_of elem). split; [by constructor|]. done.
  - rewrite bind_eq. unfold read at 1. by destruct (type self).
Qed.

Lemma build_heap_add_validated elements :
  ∀ self t,
    Forall (λ x, _is_valid_type x self = (Return true, self)) elements →
    Forall (λ x, type_of x = t) elements →
    ∀ e self', build_heap_add elements self = (Raise e, self') → ¬ validation_error e.
Proof.
  induction elements as [|elem rest IH]; intros self t Hv Ht e self'; simpl; [done|].
  inversion Hv as [|? ? Hv1 Hv2]; subst. inversion Ht as [|? ? Ht1 Ht2]; subst.
  rewrite bind_eq. destruct (add elem self) as [[[]|e'|] s1] eqn:Ea; [| |done].
  - apply add_Return in Ea as [_ (_ & _ & _ & Hty)]. simpl in Hty.
    apply (IH s1 (type_of elem)); [|done].
    eapply Forall_impl; [exact Ht2|]. intros x Hx. simpl in Hx.
    rewrite is_valid_type_run, Hty. by rewrite bool_decide_eq_true_2.
  - intros [= <- <-]. rewrite (add_accepted _ _ Hv1) in Ea. revert Ea.
    generalize (mkBinaryHeap (heap self ++ [elem]) (max_heap self) (Some (type_of elem))).
    assert (raises_only (λ e, ¬ validation_error e)
              (n ← size; if 1 <? n then n ← size; let i := n - 1 in _heapify_up i
                         else ret tt)) as H; [|intros s; apply H].
    pose proof raises_only_heapify_up. unfold size. raises_auto.
Qed.

(** ** Sizes along [add] and [poll] *)

Lemma add_Return_length elem self self' :
  add elem self = (Return tt, self') →
  length (heap self') = S (length (heap self)).
Proof.
  intros H. apply add_Return in H as [_ (L & _)]. simpl in L.
  rewrite L, length_app. simpl. lia.
Qed.

Lemma build_heap_add_Return_length elements :
  ∀ self self',
    build_heap_add elements self = (Return tt, self') →
    length (heap self') = (length (heap self) + length elements)%nat.
Proof.
  induction elements as [|elem rest IH]; intros self self'; simpl.
  { intros [= <-]. lia. }
  intros H. apply bind_Return_inv in H as ([] & s1 & Ha & Hr).
  apply add_Return_length in Ha. apply IH in Hr. lia.
Qed.

Lemma poll_Return_length self r self' :
  heap self ≠ [] → poll self = (Return r, self') →
  length (heap self) = S (length (heap self')).
Proof.
  destruct self as [l mh ty]. cbn [heap]. intros Hne.
  destruct l as [|x l _] using rev_ind; [done|]. clear Hne.
  unfold poll. rewrite bind_eq, size_run. cbn [heap].
  destruct (Z.eqb_spec (Z.of_nat (length (l ++ [x]))) 0) as [E0|_].
  { rewrite length_app in E0. simpl in E0. lia. }
  intros H. apply bind_Return_inv in H as (root & s0 & Hroot & H).
  apply heap_getitem_Return in Hroot as [-> _].
  rewrite bind_eq, heap_pop_snoc in H.
  apply bind_Return_inv in H as ([] & s1 & Hset & H).
  apply bind_Return_inv in H as ([] & s2 & Hdown & H).
  pose proof (heap_setitem_frame 0 x (mkBinaryHeap l mh ty)) as (L1 & _).
  rewrite Hset in L1. simpl in L1.
  pose proof (shuffles_heapify_down 0 s1) as (L2 & _).
  rewrite Hdown in L2. simpl in L2.
  injection H as _ <-. rewrite length_app. simpl. lia.
Qed.

Lemma poll_times_drains_never n :
  ∀ self, n ≠ O → length (heap self) = n →
    ∃ e self', poll_times n self = (Raise e, self').
Proof.
  induction n as [|n IH]; intros self Hn Hlen; [done|].
  simpl. rewrite bind_eq.
  pose proof (total_poll self) as Ht.
  destruct (poll self) as [[r|e|] s1] eqn:Ep; [|by eauto|done].
  assert (heap self ≠ []) as Hne by (by destruct (heap self)).
  pose proof (poll_Return_length _ _ _ Hne Ep) as L.
  destruct n as [|n'].
  - by destruct self as [[|v [|]] mh ty]; simplify_eq/=.
  - destruct (IH s1) as (e & s2 & E); [done | lia|].
    rewrite bind_eq, E. eauto.
Qed.

(** ** The documented examples that the code reproduces *)

Example get_heap_docstring :
  (add (VInt 10);; add (VInt 8);; add (VInt 5);; add (VInt 12);; get_heap) (fresh true)
  = (Return [VInt 12; VInt 10; VInt 5; VInt 8],
     mkBinaryHeap [VInt 12; VInt 10; VInt 5; VInt 8] true (Some TInt)).
Proof. vm_compute. reflexivity. Qed.

Example build_heap_docstring :
  (build_heap (AList [VInt 7; VInt 12; VInt 3; VInt 8; VInt 5]);; get_heap) (fresh true)
  = (Return [VInt 12; VInt 8; VInt 3; VInt 7; VInt 5],
     mkBinaryHeap [VInt 12; VInt 8; VInt 3; VInt 7; VInt 5] true (Some TInt)).
Proof. vm_compute. reflexivity. Qed.

Example update_docstring :
  update (VInt 8) (VInt 15) (mkBinaryHeap [VInt 12; VInt 10; VInt 5; VInt 8] true (Some TInt))
  = (Return true, mkBinaryHeap [VInt 15; VInt 12; VInt 5; VInt 10] true (Some TInt)).
Proof. vm_compute. reflexivity. Qed.

Example remove_docstring :
  remove (VInt 8) (mkBinaryHeap [VInt 10; VInt 8; VInt 5] true (Some TInt))
  = (Return (VInt 8), mkBinaryHeap [VInt 10; VInt 5] true (Some TInt)).
Proof. vm_compute. reflexivity. Qed.

Example add_str_then_int :
  (add (VStr "apple");; add (VStr "orange");; add (VInt 5)) (fresh true)
  = (Raise (TypeError (MustBeOfType TStr TInt)),
     mkBinaryHeap [VStr "orange"; VStr "apple"] true (Some TStr)).
Proof. vm_compute. reflexivity. Qed.

(** * The claims *)

(** C1 (invariant preservation), evaluated on three scripts of valid
    calls from an empty max-heap.  [add(5); poll()] does not return: the
    [poll] raises [IndexError] while writing the popped element to
    position 0 of the list it has just emptied.  The script of the
    docstring of [poll], [add(10); add(12); add(7); poll()], raises
    [IndexError] in [_heapify_down], which reads the right child of a
    node that has only a left one, and leaves [7, 10], not a max-heap.
    [add] of 10, 5, 9, 4, 3, 8, 7 and then [remove(4)] returns, but
    leaves 7 below 5: heap order is broken at index 1. *)
Theorem invariant_preservation_fails :
  do_calls [Add (VInt 5); Poll] (fresh true)
  = (Raise (IndexError ListAssignmentOutOfRange), mkBinaryHeap [] true (Some TInt))
  ∧ do_calls [Add (VInt 10); Add (VInt 12); Add (VInt 7); Poll] (fresh true)
    = (Raise (IndexError ListIndexOutOfRange),
       mkBinaryHeap [VInt 7; VInt 10] true (Some TInt))
  ∧ do_calls [Add (VInt 10); Add (VInt 5); Add (VInt 9); Add (VInt 4);
              Add (VInt 3); Add (VInt 8); Add (VInt 7); Remove (VInt 4)] (fresh true)
    = (Return tt,
       mkBinaryHeap [VInt 10; VInt 5; VInt 9; VInt 7; VInt 3; VInt 8] true (Some TInt))
  ∧ ¬ heap_order
        (mkBinaryHeap [VInt 10; VInt 5; VInt 9; VInt 7; VInt 3; VInt 8] true (Some TInt)).
Proof.
  repeat split; [vm_compute; reflexivity..|].
  intros H. specialize (H 1%nat 3%nat (VInt 5) (VInt 7)).
  unfold dominates in H. simpl in H.
  specialize (H (or_introl eq_refl) eq_refl eq_refl). discriminate.
Qed.

(** C2 (extraction order): whatever the ordering and the values, once a
    heap has been populated with N >= 1 values by [add], N calls of
    [poll] never return N values: one of them raises, the last one at
    the latest, since [poll] raises on every one-element heap. *)
Theorem extraction_never_completes (mh : bool) (vs : list value) (self : BinaryHeap) :
  vs ≠ [] →
  build_heap_add vs (fresh mh) = (Return tt, self) →
  ∃ e self', poll_times (length vs) self = (Raise e, self').
Proof.
  intros Hne Hadd. apply build_heap_add_Return_length in Hadd. simpl in Hadd.
  apply poll_times_drains_never; [by destruct vs | done].
Qed.

Lemma extraction_never_completes_witness :
  [VInt 5] ≠ []
  ∧ build_heap_add [VInt 5] (fresh true)
    = (Return tt, mkBinaryHeap [VInt 5] true (Some TInt))
  ∧ ∃ e self',
      poll_times (length [VInt 5]) (mkBinaryHeap [VInt 5] true (Some TInt))
      = (Raise e, self').
Proof.
  split; [discriminate|]. split; [reflexivity|].
  apply (extraction_never_completes true [VInt 5]); [discriminate | reflexivity].
Defined.

(** C3 (poll on a single element): for every heap holding exactly one
    element, [poll] does not return it; it raises [IndexError] on the
    assignment [self.heap[0] = self.heap.pop()], and leaves the heap
    empty. *)
Theorem poll_singleton_raises (v : value) (mh : bool) (ty : option pytype) :
  poll (mkBinaryHeap [v] mh ty)
  = (Raise (IndexError ListAssignmentOutOfRange), mkBinaryHeap [] mh ty).
Proof. reflexivity. Qed.

(** C4 (remove at the last index): when the first element equal to
    [elem] sits at the last index, [remove elem] does not return it; it
    raises [IndexError] on [self.heap[i] = self.heap.pop()], and leaves
    the list with its last slot dropped. *)
Theorem remove_last_raises (self : BinaryHeap) (elem : value) :
  find_index elem (heap self) = Some (length (heap self) - 1)%nat →
  remove elem self
  = (Raise (IndexError ListAssignmentOutOfRange),
     mkBinaryHeap (removelast (heap self)) (max_heap self) (type self)).
Proof.
  destruct self as [l mh ty]. cbn [heap max_heap type]. intros Hfind.
  destruct l as [|x l _] using rev_ind; [done|].
  rewrite length_app in Hfind. simpl in Hfind.
  replace (length l + 1 - 1)%nat with (length l) in Hfind by lia.
  unfold remove. rewrite bind_eq, contains_run. cbn [heap].
  rewrite (find_index_Some_existsb _ _ _ Hfind). cbn [negb].
  rewrite bind_eq. unfold heap_index at 1. cbn [heap]. rewrite Hfind.
  rewrite bind_eq, heap_pop_snoc, bind_eq.
  pose proof (heap_setitem_at_length x (mkBinaryHeap l mh ty)) as E.
  cbn [heap] in E. rewrite E. by rewrite removelast_last.
Qed.

Lemma remove_last_raises_witness :
  find_index (VInt 5) [VInt 10; VInt 8; VInt 5] = Some (3 - 1)%nat
  ∧ remove (VInt 5) (mkBinaryHeap [VInt 10; VInt 8; VInt 5] true (Some TInt))
    = (Raise (IndexError ListAssignmentOutOfRange),
       mkBinaryHeap [VInt 10; VInt 8] true (Some TInt)).
Proof.
  split; [reflexivity|].
  apply (remove_last_raises (mkBinaryHeap [VInt 10; VInt 8; VInt 5] true (Some TInt))).
  reflexivity.
Defined.

(** C5 (atomicity with respect to errors) does not hold of [replace]:
    on the max-heap [2, 1] built by two [add]s, [replace("x")] raises
    [TypeError] when the repair compares ["x"] with 1, after it has
    overwritten the root. *)
Lemma replace_not_atomic :
  (add (VInt 2);; add (VInt 1)) (fresh true)
  = (Return tt, mkBinaryHeap [VInt 2; VInt 1] true (Some TInt))
  ∧ replace (VStr "x") (mkBinaryHeap [VInt 2; VInt 1] true (Some TInt))
    = (Raise (TypeError (NotSupportedBetween OpLt TStr TInt)),
       mkBinaryHeap [VStr "x"; VInt 1] true (Some TInt))
  ∧ ¬ atomic_wrt any_error (replace (VStr "x"))
        (mkBinaryHeap [VInt 2; VInt 1] true (Some TInt)).
Proof.
  split; [reflexivity|]. split; [reflexivity|].
  intros H. by specialize (H _ _ eq_refl I).
Qed.

(** C5, amended: every mutating method is atomic with respect to the
    errors of validation.  Whenever a call raises a [TypeError] of
    validation (type not supported, type other than the heap's, types
    mixed inside the list, argument not a list), the element list, the
    type and the flag are those before the call.  Only [add] and
    [build_heap] validate; the proof shows that [poll], [remove],
    [replace] and [update] raise no such error at all. *)
Theorem validation_is_atomic (self : BinaryHeap) :
  (∀ elem, atomic_wrt validation_error (add elem) self)
  ∧ atomic_wrt validation_error poll self
  ∧ (∀ elem, atomic_wrt validation_error (remove elem) self)
  ∧ (∀ new_root, atomic_wrt validation_error (replace new_root) self)
  ∧ (∀ old_elem new_elem, atomic_wrt validation_error (update old_elem new_elem) self)
  ∧ (∀ elements, atomic_wrt validation_error (build_heap elements) self).
Proof.
  repeat apply conj.
  - intros elem e self' H He. pose proof (is_valid_type_run elem self) as E.
    destruct (match type self with None => _ | Some _ => _ end).
    + exfalso. rewrite (add_accepted _ _ E) in H. revert H.
      generalize (mkBinaryHeap (heap self ++ [elem]) (max_heap self)
                    (Some (type_of elem))).
      intros s H.
      assert (raises_only (λ e, ¬ validation_error e)
                (n ← size; if 1 <? n then n ← size; let i := n - 1 in _heapify_up i
                           else ret tt)) as Hr.
      { pose proof raises_only_heapify_up. unfold size. raises_auto. }
      by apply (Hr _ _ _ H).
    + destruct (add_rejected _ _ E) as (m' & _ & Em). congruence.
  - intros e self' H He. by destruct (raises_only_poll _ _ _ H).
  - intros elem e self' H He. by destruct (raises_only_remove _ _ _ _ H).
  - intros new_root e self' H He. by destruct (raises_only_replace _ _ _ _ H).
  - intros old_elem new_elem e self' H He.
    by destruct (raises_only_update _ _ _ _ _ H).
  - intros [l|v] e self'; simpl; [|by intros [= _ <-]].
    rewrite bind_eq.
    destruct (readonly_run _ (readonly_build_heap_check l None) self) as (o & E & _).
    rewrite E. destruct o as [[]| |]; [|by intros [= _ <-]|done].
    intros H He. exfalso.
    apply build_heap_check_Return in E as (Hv & t & Ht & _).
    by apply (build_heap_add_validated l self t Hv Ht _ _ H).
Qed.

Lemma validation_is_atomic_witness :
  validation_error (TypeError (MustBeOfType TInt TStr))
  ∧ add (VStr "x") (mkBinaryHeap [VInt 2; VInt 1] true (Some TInt))
    = (Raise (TypeError (MustBeOfType TInt TStr)),
       mkBinaryHeap [VInt 2; VInt 1] true (Some TInt))
  ∧ validation_error (TypeError (BatchMismatch TInt TStr))
  ∧ build_heap (AList [VInt 3; VStr "x"]) (fresh true)
    = (Raise (TypeError (BatchMismatch TInt TStr)), fresh true)
  ∧ atomic_wrt validation_error (add (VStr "x"))
      (mkBinaryHeap [VInt 2; VInt 1] true (Some TInt))
  ∧ atomic_wrt validation_error (build_heap (AList [VInt 3; VStr "x"])) (fresh true).
Proof.
  split; [exact I|]. split; [reflexivity|]. split; [exact I|]. split; [reflexivity|].
  split.
  - apply (proj1 (validation_is_atomic
                    (mkBinaryHeap [VInt 2; VInt 1] true (Some TInt)))).
  - apply (validation_is_atomic (fresh true)).
Defined.

(** C6 (type-homogeneity after every mutating call) does not hold of
    [replace]: on the int heap [5], [replace("x")] returns 5 and leaves
    a heap fixed to [int] that holds a [str]. *)
Lemma replace_breaks_homogeneity :
  homogeneous TInt (mkBinaryHeap [VInt 5] true (Some TInt))
  ∧ replace (VStr "x") (mkBinaryHeap [VInt 5] true (Some TInt))
    = (Return (VInt 5), mkBinaryHeap [VStr "x"] true (Some TInt))
  ∧ ¬ homogeneous TInt (mkBinaryHeap [VStr "x"] true (Some TInt)).
Proof.
  split; [by split; [|repeat constructor]|]. split; [reflexivity|].
  intros [_ H]. by inversion H.
Qed.

(** C6, amended: on a heap fixed to the category [t] whose elements all
    belong to [t], every element belongs to [t] and the heap is still
    fixed to [t] after [add], [poll], [remove], [build_heap] or [clear]
    returns, and after [replace] or [update] returns when the new value
    belongs to [t]. *)
Theorem homogeneity_preserved (t : pytype) (self : BinaryHeap) :
  homogeneous t self →
  (∀ elem self', add elem self = (Return tt, self') → homogeneous t self')
  ∧ (∀ r self', poll self = (Return r, self') → homogeneous t self')
  ∧ (∀ elem r self', remove elem self = (Return r, self') → homogeneous t self')
  ∧ (∀ elements self', build_heap elements self = (Return tt, self') → homogeneous t self')
  ∧ (∀ self', clear self = (Return tt, self') → homogeneous t self')
  ∧ (∀ new_root r self',
       type_of new_root = t →
       replace new_root self = (Return r, self') → homogeneous t self')
  ∧ (∀ old_elem new_elem r self',
       type_of new_elem = t →
       update old_elem new_elem self = (Return r, self') → homogeneous t self').
Proof.
  intros HI.
  assert (∀ A (m : M A) R o self',
            keeps (homogeneous t) m R → m self = (o, self') → homogeneous t self') as K.
  { intros A m R o self' Hk E. destruct (Hk self HI) as [H _]. by rewrite E in H. }
  repeat apply conj; intros.
  - eapply K; [apply keeps_add | done].
  - eapply K; [apply keeps_poll | done].
  - eapply K; [apply keeps_remove | done].
  - eapply K; [apply keeps_build_heap | done].
  - eapply K; [apply keeps_clear | done].
  - eapply K; [by apply keeps_replace | done].
  - eapply K; [by apply keeps_update | done].
Qed.

Lemma homogeneity_preserved_witness :
  homogeneous TInt (mkBinaryHeap [VInt 12; VInt 10; VInt 5; VInt 8] true (Some TInt))
  ∧ replace (VInt 15) (mkBinaryHeap [VInt 12; VInt 10; VInt 5; VInt 8] true (Some TInt))
    = (Return (VInt 12), mkBinaryHeap [VInt 15; VInt 10; VInt 5; VInt 8] true (Some TInt))
  ∧ homogeneous TInt (mkBinaryHeap [VInt 15; VInt 10; VInt 5; VInt 8] true (Some TInt)).
Proof.
  assert (homogeneous TInt
            (mkBinaryHeap [VInt 12; VInt 10; VInt 5; VInt 8] true (Some TInt))) as H.
  { split; [reflexivity | repeat constructor]. }
  split; [exact H|]. split; [vm_compute; reflexivity|].
  destruct (homogeneity_preserved TInt _ H) as (_ & _ & _ & _ & _ & Hreplace & _).
  apply (Hreplace (VInt 15) (VInt 12)); [reflexivity | vm_compute; reflexivity].
Defined.

(** C7 (complex numbers as a supported category): for every two complex
    values, the first [add] to a fresh heap succeeds and fixes the type
    to [complex]; the second [add] appends its element and then raises
    [TypeError], because the repair compares the two with [<] (max-heap)
    or [>] (min-heap), which Python does not define on [complex]. *)
Theorem complex_second_add_raises (mh : bool) (re1 im1 re2 im2 : float) :
  __init__ mh None = Return (fresh mh)
  ∧ add (VComplex re1 im1) (fresh mh)
    = (Return tt, mkBinaryHeap [VComplex re1 im1] mh (Some TComplex))
  ∧ add (VComplex re2 im2) (mkBinaryHeap [VComplex re1 im1] mh (Some TComplex))
    = (Raise (TypeError (NotSupportedBetween (if mh then OpLt else OpGt)
                           TComplex TComplex)),
       mkBinaryHeap [VComplex re1 im1; VComplex re2 im2] mh (Some TComplex)).
Proof. destruct mh; repeat split; reflexivity. Qed.

(** C8 (bulk build validates before it mutates): for every heap and
    every list holding two elements of different types, [build_heap]
    raises a [TypeError] of validation and leaves the object, element
    list and type included, as it was. *)
Theorem build_heap_mixed_rejected
    (self : BinaryHeap) (l : list value) (i j : nat) (x y : value) :
  l !! i = Some x → l !! j = Some y → type_of x ≠ type_of y →
  ∃ m, validation_msg m ∧ build_heap (AList l) self = (Raise (TypeError m), self).
Proof.
  intros Hx Hy Hne. simpl. rewrite bind_eq.
  destruct (readonly_run _ (readonly_build_heap_check l None) self) as (o & E & Ho).
  rewrite E. destruct o as [[]|e|]; [|clear Ho|done].
  - apply build_heap_check_Return in E as (_ & t & Ht & _).
    rewrite Forall_lookup in Ht. destruct Hne.
    by rewrite (Ht _ _ Hx), (Ht _ _ Hy).
  - apply build_heap_check_Raise in E. destruct e as [|m|]; [done| |done]. eauto.
Qed.

Lemma build_heap_mixed_rejected_witness :
  [VInt 1; VStr "x"; VInt 3] !! 0%nat = Some (VInt 1)
  ∧ [VInt 1; VStr "x"; VInt 3] !! 1%nat = Some (VStr "x")
  ∧ type_of (VInt 1) ≠ type_of (VStr "x")
  ∧ ∃ m, validation_msg m
         ∧ build_heap (AList [VInt 1; VStr "x"; VInt 3]) (fresh true)
           = (Raise (TypeError m), fresh true).
Proof.
  split; [reflexivity|]. split; [reflexivity|]. split; [discriminate|].
  apply (build_heap_mixed_rejected (fresh true) [VInt 1; VStr "x"; VInt 3]
           0 1 (VInt 1) (VStr "x")); [reflexivity | reflexivity | discriminate].
Defined.

(** C9 (clear): for every heap, [clear] empties the element list and
    leaves the ordering flag and the element type as they were. *)
Theorem clear_resets_elements_only (self : BinaryHeap) :
  clear self = (Return tt, mkBinaryHeap [] (max_heap self) (type self)).
Proof. reflexivity. Qed.

(** C10 (peek on an empty heap): [peek] raises the [IndexError] of the
    list access [self.heap[0]]; it does not return [None], and it leaves
    the object as it was. *)
Theorem peek_empty_raises (self : BinaryHeap) :
  heap self = [] →
  peek self = (Raise (IndexError ListIndexOutOfRange), self).
Proof. intros H. unfold peek, heap_getitem. by rewrite H. Qed.

Lemma peek_empty_raises_witness :
  heap (fresh true) = []
  ∧ peek (fresh true) = (Raise (IndexError ListIndexOutOfRange), fresh true).
Proof. split; [reflexivity|]. apply (peek_empty_raises (fresh true)). reflexivity. Defined.

(** * Further properties of the methods *)

(** ** The order of [int], [bool] and [str] values *)

Lemma ascii_compare_trans_le a b c :
  Ascii.compare a b ≠ Gt → Ascii.compare b c ≠ Gt → Ascii.compare a c ≠ Gt.
Proof.
  unfold Ascii.compare. rewrite !N.compare_gt_iff. lia.
Qed.

Lemma ascii_compare_Eq a b : Ascii.compare a b = Eq → a = b.
Proof. apply Ascii.compare_eq_iff. Qed.

Lemma string_compare_le_trans a : ∀ b c,
  String.compare a b ≠ Gt → String.compare b c ≠ Gt → String.compare a c ≠ Gt.
Proof.
  induction a as [|x a IH]; intros [|y b] [|z c]; simpl; try done.
  destruct (Ascii.compare x y) eqn:Exy; [|clear IH|done].
  - apply ascii_compare_Eq in Exy as ->.
    destruct (Ascii.compare y z) eqn:Eyz; [apply IH|done..].
  - destruct (Ascii.compare y z) eqn:Eyz; [| |done].
    + apply ascii_compare_Eq in Eyz as <-. by rewrite Exy.
    + intros _ _. assert (Ascii.compare x z = Lt) as ->; [|done].
      revert Exy Eyz. unfold Ascii.compare. rewrite !N.compare_lt_iff. lia.
Qed.

Lemma py_compare_ordered t x y :
  ordered_type t → type_of x = t → type_of y = t →
  ∃ c, py_compare x y = Some (Some c) ∧ py_compare y x = Some (Some (CompOpp c)).
Proof.
  intros [-> | [-> | ->]]; destruct x, y; try done; intros _ _; simpl; eexists; split;
    try reflexivity.
  - by rewrite Z.compare_antisym.
  - by rewrite Z.compare_antisym.
  - by rewrite String.compare_antisym.
Qed.

Lemma vle_total t x y :
  ordered_type t → type_of x = t → type_of y = t → vle x y ∨ vle y x.
Proof.
  intros Ht Hx Hy. destruct (py_compare_ordered t x y Ht Hx Hy) as (c & E1 & E2).
  destruct c; [left|left|right]; eexists; split; eauto; done.
Qed.

Lemma vle_trans t x y z :
  ordered_type t → type_of x = t → type_of y = t → type_of z = t →
  vle x y → vle y z → vle x z.
Proof.
  intros [-> | [-> | ->]]; destruct x, y, z; try done; intros _ _ _;
    intros (c1 & E1 & H1) (c2 & E2 & H2); simpl in *; simplify_eq;
    eexists; (split; [reflexivity|]).
  - rewrite Z.compare_gt_iff in *. lia.
  - rewrite Z.compare_gt_iff in *. lia.
  - by eapply string_compare_le_trans.
Qed.

(* py_order in terms of vle *)
Lemma py_order_ordered t op x y :
  ordered_type t → type_of x = t → type_of y = t →
  ∃ b, py_order op x y = Return b
       ∧ match op with
         | OpLt => b = false ↔ vle y x
         | OpGt => b = false ↔ vle x y
         | OpLe => b = true ↔ vle x y
         | OpGe => b = true ↔ vle y x
         end.
Proof.
  intros Ht Hx Hy. destruct (py_compare_ordered t x y Ht Hx Hy) as (c & E1 & E2).
  unfold py_order, vle. rewrite E1, E2. eexists. split; [reflexivity|].
  destruct op, c; simpl; split; try done; try (intros (c' & [= <-] & ?); done);
    intros _; eexists; split; try reflexivity; done.
Qed.

(** ** Lists indexed by naturals *)

Lemma getitem_nat (k : nat) self x :
  heap self !! k = Some x → heap_getitem (Z.of_nat k) self = (Return x, self).
Proof.
  intros H. unfold heap_getitem, py_index.
  apply lookup_lt_Some in H as Hlt.
  rewrite bool_decide_eq_true_2 by lia. by rewrite Nat2Z.id, H.
Qed.

Lemma getitem_nat_None (k : nat) self :
  heap self !! k = None →
  heap_getitem (Z.of_nat k) self = (Raise (IndexError ListIndexOutOfRange), self).
Proof.
  intros H. unfold heap_getitem, py_index.
  apply lookup_ge_None in H.
  rewrite !bool_decide_eq_false_2 by lia. done.
Qed.

Lemma setitem_nat (k : nat) v self :
  (k < length (heap self))%nat →
  heap_setitem (Z.of_nat k) v self
  = (Return tt, mkBinaryHeap (<[k := v]> (heap self)) (max_heap self) (type self)).
Proof.
  intros H. unfold heap_setitem, py_index.
  rewrite bool_decide_eq_true_2 by lia. by rewrite Nat2Z.id.
Qed.

Lemma swap_with_nat (j i : nat) self :
  (j < length (heap self))%nat → (i < length (heap self))%nat →
  swap_with (Z.of_nat j) (Z.of_nat i) self
  = (Return tt, mkBinaryHeap (swapped (heap self) j i) (max_heap self) (type self)).
Proof.
  intros Hj Hi. unfold swap_with, swapped.
  destruct (lookup_lt_is_Some_2 _ _ Hj) as [xj Ej].
  destruct (lookup_lt_is_Some_2 _ _ Hi) as [xi Ei].
  rewrite Ej, Ei.
  rewrite bind_eq, (getitem_nat _ _ _ Ej), bind_eq, (getitem_nat _ _ _ Ei).
  rewrite bind_eq, setitem_nat by done.
  rewrite setitem_nat by (simpl; by rewrite length_insert). simpl.
  f_equal. f_equal.
  destruct (decide (i = j)) as [->|Hne].
  - simplify_eq. by rewrite !list_insert_insert_eq.
  - by rewrite list_insert_insert_ne.
Qed.

Lemma swapped_length l i j : length (swapped l i j) = length l.
Proof.
  unfold swapped. destruct (l !! i), (l !! j); by rewrite ?length_insert.
Qed.

Lemma swapped_lookup l i j n :
  (i < length l)%nat → (j < length l)%nat →
  swapped l i j !! n
  = if decide (n = i) then l !! j else if decide (n = j) then l !! i else l !! n.
Proof.
  intros Hi Hj. unfold swapped.
  destruct (lookup_lt_is_Some_2 _ _ Hi) as [x Ex].
  destruct (lookup_lt_is_Some_2 _ _ Hj) as [y Ey]. rewrite Ex, Ey.
  destruct (decide (n = i)) as [->|]; [by rewrite list_lookup_insert_eq by (by rewrite length_insert)|].
  rewrite list_lookup_insert_ne by done.
  destruct (decide (n = j)) as [->|]; [by rewrite list_lookup_insert_eq|].
  by rewrite list_lookup_insert_ne.
Qed.

Lemma swapped_perm l i j : swapped l i j ≡ₚ l.
Proof.
  unfold swapped. destruct (l !! i) as [x|] eqn:Ex; [|done].
  destruct (l !! j) as [y|] eqn:Ey; [|done].
  destruct (decide (i = j)) as [->|Hne].
  { simplify_eq. rewrite list_insert_insert_eq. by rewrite list_insert_id. }
  symmetry. apply Permutation_inj. split.
  { by rewrite !length_insert. }
  exists (λ n, if decide (n = i) then j else if decide (n = j) then i else n). split.
  - intros a b. repeat case_decide; intros; simplify_eq; done.
  - intros n. repeat case_decide; simplify_eq.
    + rewrite list_lookup_insert_ne by done.
      rewrite list_lookup_insert_eq; [done|]. by eapply lookup_lt_Some.
    + rewrite list_lookup_insert_eq; [done|]. rewrite length_insert. by eapply lookup_lt_Some.
    + by rewrite !list_lookup_insert_ne by done.
Qed.

(** ** The tests of the repair loops, on values of an ordered type *)

Lemma dominates_above self x y : dominates self x y ↔ above (max_heap self) x y.
Proof. done. Qed.

Section Ordered.
Variable t : pytype.
Hypothesis Ht : ordered_type t.
Implicit Types (mh : bool) (x y z : value).

Lemma ordered_not_None v : type_of v = t → is_not_None v = true.
Proof. destruct Ht as [-> | [-> | ->]]; by destruct v. Qed.

Lemma above_vle mh x y :
  type_of x = t → type_of y = t →
  above mh x y ↔ if mh then vle y x else vle x y.
Proof.
  intros Hx Hy. unfold above.
  destruct (py_order_ordered t (if mh then OpGe else OpLe) x y Ht Hx Hy) as (b & -> & Hb).
  destruct mh; rewrite <- Hb; split; congruence.
Qed.

Lemma above_total mh x y :
  type_of x = t → type_of y = t → above mh x y ∨ above mh y x.
Proof.
  intros Hx Hy. rewrite !above_vle by done.
  destruct mh; [destruct (vle_total t y x)|destruct (vle_total t x y)]; auto.
Qed.

Lemma above_refl mh x : type_of x = t → above mh x x.
Proof. intros Hx. destruct (above_total mh x x Hx Hx) as [H|H]; exact H. Qed.

Lemma above_trans mh x y z :
  type_of x = t → type_of y = t → type_of z = t →
  above mh x y → above mh y z → above mh x z.
Proof.
  intros Hx Hy Hz. rewrite !above_vle by done.
  destruct mh; intros H1 H2;
    [apply (vle_trans t z y x) | apply (vle_trans t x y z)]; done.
Qed.

(** The strict test of [_check_child_invariance]: [x < y] in a max-heap,
    [x > y] in a min-heap; it fails exactly when [x] dominates [y]. *)
Lemma strict_test mh x y :
  type_of x = t → type_of y = t →
  ∃ b, py_order (if mh then OpLt else OpGt) x y = Return b
       ∧ (b = false ↔ above mh x y).
Proof.
  intros Hx Hy.
  destruct (py_order_ordered t (if mh then OpLt else OpGt) x y Ht Hx Hy) as (b & -> & Hb).
  exists b. split; [done|]. rewrite above_vle by done. by destruct mh.
Qed.

(** The test of [prefer_left]. *)
Lemma weak_test mh x y :
  type_of x = t → type_of y = t →
  ∃ b, py_order (if mh then OpGe else OpLe) x y = Return b
       ∧ (b = true ↔ above mh x y) ∧ (b = false → above mh y x).
Proof.
  intros Hx Hy. unfold above.
  destruct (py_order_ordered t (if mh then OpGe else OpLe) x y Ht Hx Hy) as (b & E & Hb).
  exists b. split; [done|]. split; [rewrite E; split; congruence|].
  intros ->. destruct (above_total mh x y Hx Hy) as [H|H]; [|done].
  unfold above in H. congruence.
Qed.

Implicit Types (self : BinaryHeap) (l : list value).

Lemma child_run (k : nat) self (off : Z) (child : Z → M value) :
  (∀ i, child i =
     (n ← size;
      if (i <? 0) || (n <=? i) then raise (IndexError IndexOutOfBounds)
      else let index := i * 2 + off in
           n ← size; if index <? n then heap_getitem index else ret VNone)) →
  (off = 1 ∨ off = 2) →
  (k < length (heap self))%nat →
  child (Z.of_nat k) self
  = (Return (default VNone (heap self !! (2 * k + Z.to_nat off)%nat)), self).
Proof.
  intros -> Hoff Hk. rewrite bind_eq, size_run.
  destruct (Z.ltb_spec (Z.of_nat k) 0); [lia|].
  destruct (Z.leb_spec (Z.of_nat (length (heap self))) (Z.of_nat k)); [lia|].
  cbn [orb]. cbv zeta. rewrite bind_eq, size_run.
  replace (Z.of_nat k * 2 + off) with (Z.of_nat (2 * k + Z.to_nat off)) by lia.
  destruct (Z.ltb_spec (Z.of_nat (2 * k + Z.to_nat off)) (Z.of_nat (length (heap self)))).
  - destruct (lookup_lt_is_Some_2 (heap self) (2 * k + Z.to_nat off)) as [y Hy]; [lia|].
    by rewrite (getitem_nat _ _ _ Hy), Hy.
  - rewrite lookup_ge_None_2 by lia. done.
Qed.

Lemma left_child_nat (k : nat) self :
  (k < length (heap self))%nat →
  left_child (Z.of_nat k) self
  = (Return (default VNone (heap self !! (2 * k + 1)%nat)), self).
Proof. intros. by apply (child_run k self 1 left_child); [|left|]. Qed.

Lemma right_child_nat (k : nat) self :
  (k < length (heap self))%nat →
  right_child (Z.of_nat k) self
  = (Return (default VNone (heap self !! (2 * k + 2)%nat)), self).
Proof. intros. by apply (child_run k self 2 right_child); [|right|]. Qed.


Lemma typed_lookup l n x : typed t l → l !! n = Some x → type_of x = t.
Proof. unfold typed. rewrite Forall_lookup. eauto. Qed.

(** One disjunct of the test of [_check_child_invariance]. *)
Lemma violates_one (k c : nat) self x (child : Z → M value) :
  typed t (heap self) → heap self !! k = Some x →
  child (Z.of_nat k) self = (Return (default VNone (heap self !! c)), self) →
  ∃ b, and_ (v ← child (Z.of_nat k); ret (is_not_None v))
            (elem_vs_child (if max_heap self then OpLt else OpGt) (Z.of_nat k) child) self
       = (Return b, self)
       ∧ (b = false ↔ ∀ y, heap self !! c = Some y → above (max_heap self) x y).
Proof.
  intros Hty Hx Hc. unfold and_, elem_vs_child. rewrite !bind_eq, Hc.
  destruct (heap self !! c) as [y|] eqn:Hy; simpl.
  - rewrite (ordered_not_None y) by (by eapply typed_lookup).
    rewrite bind_eq, (getitem_nat _ _ _ Hx), bind_eq, Hc. simpl.
    destruct (strict_test (max_heap self) x y) as (b & E & Hb);
      [by eapply typed_lookup..|].
    unfold eval. rewrite E. exists b. split; [done|]. rewrite Hb.
    split; [by intros ? ? [= <-]|auto].
  - exists false. split; [done|]. done.
Qed.

Lemma check_child_invariance_nat (k : nat) self x :
  typed t (heap self) → heap self !! k = Some x →
  ∃ b, _check_child_invariance (Z.of_nat k) self = (Return b, self)
       ∧ (b = true ↔
          ∀ c y, is_child k c → heap self !! c = Some y → above (max_heap self) x y).
Proof.
  intros Hty Hx. apply lookup_lt_Some in Hx as Hk.
  unfold _check_child_invariance. rewrite bind_eq, size_run.
  destruct (Z.leb_spec (Z.of_nat (length (heap self))) (Z.of_nat k)); [lia|].
  rewrite bind_eq. unfold read at 1.
  destruct (violates_one k (2 * k + 1) self x left_child Hty Hx (left_child_nat k self Hk))
    as (bl & El & Hl).
  destruct (violates_one k (2 * k + 2) self x right_child Hty Hx (right_child_nat k self Hk))
    as (br & Er & Hr).
  assert (child_violates (if max_heap self then OpLt else OpGt) (Z.of_nat k) self
          = (Return (bl || br), self)) as Ev.
  { unfold child_violates, or_. rewrite bind_eq, El. destruct bl; [done|]. by rewrite Er. }
  assert ((bl || br = false) ↔
          ∀ c y, is_child k c → heap self !! c = Some y → above (max_heap self) x y) as Hb.
  { rewrite orb_false_iff, Hl, Hr. split.
    - intros [H1 H2] c y [->| ->]; auto.
    - intros Hall. split; intros y; apply Hall; [by left | by right]. }
  destruct (max_heap self); rewrite bind_eq, Ev;
    (destruct (bl || br); [exists false | exists true]; (split; [done|]));
    rewrite <- Hb; split; congruence.
Qed.

Lemma prefer_left_nat (k : nat) self xl xr :
  typed t (heap self) →
  heap self !! (2 * k + 1)%nat = Some xl → heap self !! (2 * k + 2)%nat = Some xr →
  ∃ b, prefer_left (Z.of_nat k * 2 + 1) (Z.of_nat k * 2 + 2) self = (Return b, self)
       ∧ (b = true → above (max_heap self) xl xr) ∧ (b = false → above (max_heap self) xr xl).
Proof.
  intros Hty Hl Hr.
  replace (Z.of_nat k * 2 + 1) with (Z.of_nat (2 * k + 1)) by lia.
  replace (Z.of_nat k * 2 + 2) with (Z.of_nat (2 * k + 2)) by lia.
  destruct (weak_test (max_heap self) xl xr) as (b & E & Hb1 & Hb2);
    [by eapply typed_lookup..|].
  exists b. split; [|split; [apply Hb1 | done]].
  unfold prefer_left, or_, and_, not_. rewrite !bind_eq. unfold read at 1.
  destruct (max_heap self) eqn:Emh.
  - rewrite !bind_eq, (getitem_nat _ _ _ Hl), bind_eq, (getitem_nat _ _ _ Hr).
    unfold eval. rewrite E. destruct b; [done|].
    rewrite !bind_eq. unfold read at 1. by rewrite Emh.
  - unfold ret at 1. rewrite !bind_eq. unfold read at 1. rewrite Emh.
    unfold ret at 1. cbn [negb].
    rewrite !bind_eq, (getitem_nat _ _ _ Hl), bind_eq, (getitem_nat _ _ _ Hr).
    unfold eval. rewrite E. by destruct b.
Qed.

Lemma prefer_left_no_right (k : nat) self xl :
  heap self !! (2 * k + 1)%nat = Some xl → heap self !! (2 * k + 2)%nat = None →
  prefer_left (Z.of_nat k * 2 + 1) (Z.of_nat k * 2 + 2) self
  = (Raise (IndexError ListIndexOutOfRange), self).
Proof.
  intros Hl Hr.
  replace (Z.of_nat k * 2 + 1) with (Z.of_nat (2 * k + 1)) by lia.
  replace (Z.of_nat k * 2 + 2) with (Z.of_nat (2 * k + 2)) by lia.
  unfold prefer_left, or_, and_, not_. rewrite !bind_eq. unfold read at 1.
  destruct (max_heap self) eqn:Emh.
  - by rewrite !bind_eq, (getitem_nat _ _ _ Hl), bind_eq, (getitem_nat_None _ _ Hr).
  - unfold ret at 1. rewrite !bind_eq. unfold read at 1. rewrite Emh.
    unfold ret at 1. cbn [negb].
    by rewrite !bind_eq, (getitem_nat _ _ _ Hl), bind_eq, (getitem_nat_None _ _ Hr).
Qed.

End Ordered.

(** ** Sift-up restores heap order *)

Lemma heapify_up_loop_step fuel i parent_i :
  heapify_up_loop (S fuel) i parent_i
  = (go ← and_ (ret (0 <=? parent_i)) (not_ (_check_child_invariance parent_i));
     if go then swap_with parent_i i;; heapify_up_loop fuel parent_i ((parent_i - 1) / 2)
     else ret tt).
Proof. reflexivity. Qed.

Lemma heapify_down_loop_step fuel i :
  heapify_down_loop (S fuel) i
  = (go ← not_ (_check_child_invariance i);
     if go then
       left ← prefer_left (i * 2 + 1) (i * 2 + 2);
       if left then swap_with (i * 2 + 1) i;; heapify_down_loop fuel (i * 2 + 1)
       else swap_with (i * 2 + 2) i;; heapify_down_loop fuel (i * 2 + 2)
     else ret tt).
Proof. reflexivity. Qed.

Lemma parent_nat (k : nat) : (Z.of_nat k - 1) / 2 = Z.of_nat ((k - 1) / 2) ∨ k = O.
Proof.
  destruct k as [|k]; [by right|]. left.
  rewrite Nat2Z.inj_div. f_equal. lia.
Qed.

Lemma is_child_parent p k : is_child p k → p = ((k - 1) / 2)%nat ∧ (p < k)%nat.
Proof.
  intros [-> | ->]; split; try lia.
  - replace (2 * p + 1 - 1)%nat with (p * 2)%nat by lia. by rewrite Nat.div_mul.
  - replace (2 * p + 2 - 1)%nat with (1 + p * 2)%nat by lia.
    rewrite Nat.div_add by done. done.
Qed.

Lemma parent_is_child k : (0 < k)%nat → is_child ((k - 1) / 2) k.
Proof.
  intros Hk. unfold is_child.
  pose proof (Nat.div_mod_eq (k - 1) 2).
  pose proof (Nat.mod_upper_bound (k - 1) 2). lia.
Qed.

Section Sift.
Variable t : pytype.
Hypothesis Ht : ordered_type t.
Implicit Types (mh : bool) (l : list value) (k : nat).

Lemma typed_perm l l' : l' ≡ₚ l → typed t l → typed t l'.
Proof. intros Hp. unfold typed. by rewrite Hp. Qed.

(** One exchange of sift-up keeps the invariant, one level higher. *)
Lemma up_inv_swapped mh l k xp xk :
  typed t l → (0 < k)%nat →
  l !! ((k - 1) / 2)%nat = Some xp → l !! k = Some xk →
  up_inv mh l k → above mh xk xp →
  up_inv mh (swapped l ((k - 1) / 2) k) ((k - 1) / 2).
Proof.
  intros Hty Hk Hxp Hxk [Hord Hbr] Hdom.
  pose proof (parent_is_child k Hk) as Hpk.
  generalize dependent ((k - 1) / 2)%nat. intros p Hxp Hpk.
  assert (p < length l)%nat as Lp by (by eapply lookup_lt_Some).
  assert (k < length l)%nat as Lk by (by eapply lookup_lt_Some).
  assert (∀ n x, l !! n = Some x → type_of x = t) as Hty'.
  { intros n x. by apply typed_lookup. }
  split.
  - intros i c x y Hic Hx Hy Hc.
    rewrite swapped_lookup in Hx, Hy by done.
    assert (c ≠ p) as Hcp by done. rewrite (decide_False _ _ Hcp) in Hy.
    destruct (decide (i = p)) as [->|Hip]; [|destruct (decide (i = k)) as [->|Hik]].
    + assert (x = xk) as -> by congruence.
      destruct (decide (c = k)) as [->|Hck]; [by assert (y = xp) as -> by congruence|].
      apply (above_trans t Ht mh _ xp _); [by eapply Hty'.. | done |].
      by eapply (Hord p c).
    + assert (x = xp) as -> by congruence.
      rewrite decide_False in Hy by (unfold is_child in *; lia).
      by eapply (Hbr p c).
    + rewrite decide_False in Hy by (unfold is_child in *; lia).
      eapply (Hord i c); eauto. unfold is_child in *; lia.
  - intros g c x y Hgp Hpc Hx Hy.
    rewrite swapped_lookup in Hx, Hy by done.
    rewrite !decide_False in Hx by (unfold is_child in *; lia).
    rewrite (decide_False (P := c = p)) in Hy by (unfold is_child in *; lia).
    assert (above mh x xp) as Hgxp.
    { eapply (Hord g p); eauto. unfold is_child in *; lia. }
    destruct (decide (c = k)) as [->|Hck]; [by assert (y = xp) as -> by congruence|].
    apply (above_trans t Ht mh _ xp _); [by eapply Hty'.. | done |].
    by eapply (Hord p c).
Qed.

Lemma heapify_up_loop_correct fuel :
  ∀ k l mh ty,
    typed t l → (k < length l)%nat → up_inv mh l k → (k < fuel)%nat →
    ∃ l', heapify_up_loop fuel (Z.of_nat k) ((Z.of_nat k - 1) / 2) (mkBinaryHeap l mh ty)
          = (Return tt, mkBinaryHeap l' mh ty)
          ∧ l' ≡ₚ l ∧ ordered_except mh l' (λ _ _, False).
Proof.
  induction fuel as [|fuel IH]; intros k l mh ty Hty Hk Hinv Hfuel; [lia|].
  rewrite heapify_up_loop_step, bind_eq. unfold and_ at 1. rewrite bind_eq.
  unfold ret at 1.
  destruct (parent_nat k) as [Hp | ->].
  2:{ simpl. exists l. split; [done|]. split; [done|].
      intros i c x y Hic Hx Hy _. destruct Hinv as [Hord _].
      eapply (Hord i c); eauto. destruct Hic; lia. }
  rewrite Hp. set (p := ((k - 1) / 2)%nat) in *.
  destruct (Z.leb_spec 0 (Z.of_nat p)); [|lia].
  destruct (decide (k = O)) as [->|Hk0].
  { exfalso. clear -Hp. simpl in Hp. done. }
  assert (p < k)%nat as Hpk.
  { pose proof (is_child_parent p k (parent_is_child k ltac:(lia))). lia. }
  destruct (lookup_lt_is_Some_2 l p) as [xp Hxp]; [lia|].
  destruct (lookup_lt_is_Some_2 l k) as [xk Hxk]; [lia|].
  destruct (check_child_invariance_nat t Ht p (mkBinaryHeap l mh ty) xp Hty Hxp)
    as (b & Eb & Hb).
  unfold not_ at 1. rewrite bind_eq, Eb. unfold ret at 1. cbn [heap max_heap] in Hb.
  destruct b; cbn [negb].
  - exists l. split; [done|]. split; [done|].
    intros i c x y Hic Hx Hy _. destruct Hinv as [Hord _].
    destruct (decide (c = k)) as [->|Hck]; [|by eapply (Hord i c)].
    pose proof (is_child_parent _ _ Hic) as [Hi _]. fold p in Hi. subst i.
    simplify_eq. by eapply (proj1 Hb eq_refl k).
  - assert (above mh xk xp) as Hdom.
    { destruct (above_total t Ht mh xp xk) as [Hd|Hd];
        [by eapply typed_lookup..| |done].
      exfalso. assert (false = true); [|done]. apply Hb.
      intros c y Hc Hy. destruct (decide (c = k)) as [->|Hck]; [by simplify_eq|].
      destruct Hinv as [Hord _]. by eapply (Hord p c). }
    rewrite bind_eq.
    rewrite (swap_with_nat p k (mkBinaryHeap l mh ty)) by (simpl; lia).
    cbn [heap max_heap type].
    destruct (IH p (swapped l p k) mh ty) as (l' & E & Hperm & Hord').
    + eapply typed_perm; [apply swapped_perm | done].
    + rewrite swapped_length. lia.
    + by eapply (up_inv_swapped mh l k xp xk); [| lia | ..].
    + lia.
    + exists l'. split; [done|]. split; [|done]. by rewrite Hperm, swapped_perm.
Qed.

End Sift.

(** ** Sift-down restores heap order, when it can read both children *)

Section SiftDown.
Variable t : pytype.
Hypothesis Ht : ordered_type t.
Implicit Types (mh : bool) (l : list value) (k : nat).

(** One exchange of sift-down keeps the invariant, one level lower. *)
Lemma down_inv_swapped mh l k c xk xc :
  typed t l → is_child k c →
  l !! k = Some xk → l !! c = Some xc →
  down_inv mh l k → above mh xc xk →
  (∀ o y, is_child k o → l !! o = Some y → above mh xc y) →
  down_inv mh (swapped l c k) c.
Proof.
  intros Hty Hkc Hxk Hxc [Hord Hbr] Hdom Hbest.
  assert (c < length l)%nat as Lc by (by eapply lookup_lt_Some).
  assert (k < length l)%nat as Lk by (by eapply lookup_lt_Some).
  split.
  - intros i c' x y Hic Hx Hy Hi.
    rewrite swapped_lookup in Hx, Hy by done.
    assert (i ≠ c) as Hic' by done. rewrite (decide_False _ _ Hic') in Hx.
    destruct (decide (i = k)) as [->|Hik].
    + assert (x = xc) as -> by congruence.
      destruct (decide (c' = c)) as [->|Hcc]; [by assert (y = xk) as -> by congruence|].
      rewrite decide_False in Hy by (unfold is_child in *; lia).
      by eapply Hbest.
    + rewrite (decide_False (P := c' = c)) in Hy by (unfold is_child in *; lia).
      destruct (decide (c' = k)) as [->|Hck].
      * assert (y = xc) as -> by congruence. by eapply (Hbr i c).
      * by eapply (Hord i c').
  - intros p c' x y Hpc Hcc Hx Hy.
    rewrite swapped_lookup in Hx, Hy by done.
    assert (p = k) as -> by (unfold is_child in *; lia).
    rewrite decide_False in Hx by (unfold is_child in *; lia).
    rewrite decide_True in Hx by done.
    rewrite !decide_False in Hy by (unfold is_child in *; lia).
    assert (x = xc) as -> by congruence.
    eapply (Hord c c'); eauto. unfold is_child in *; lia.
Qed.

Lemma heapify_down_loop_correct fuel :
  ∀ k l mh ty,
    typed t l → (k < length l)%nat → down_inv mh l k → (length l - k < fuel)%nat →
    ∃ o l',
      heapify_down_loop fuel (Z.of_nat k) (mkBinaryHeap l mh ty)
      = (o, mkBinaryHeap l' mh ty)
      ∧ l' ≡ₚ l
      ∧ ((o = Return tt ∧ ordered_except mh l' (λ _ _, False))
         ∨ (o = Raise (IndexError ListIndexOutOfRange) ∧ Nat.Even (length l))).
Proof.
  induction fuel as [|fuel IH]; intros k l mh ty Hty Hk Hinv Hfuel; [lia|].
  rewrite heapify_down_loop_step, bind_eq.
  destruct (lookup_lt_is_Some_2 l k) as [xk Hxk]; [lia|].
  destruct (check_child_invariance_nat t Ht k (mkBinaryHeap l mh ty) xk Hty Hxk)
    as (b & Eb & Hb).
  unfold not_ at 1. rewrite bind_eq, Eb. unfold ret at 1. cbn [heap max_heap] in Hb.
  destruct b; cbn [negb].
  { exists (Return tt), l. split; [done|]. split; [done|]. left. split; [done|].
    intros i c x y Hic Hx Hy _. destruct Hinv as [Hord _].
    destruct (decide (i = k)) as [->|Hik]; [|by eapply (Hord i c)].
    simplify_eq. by eapply (proj1 Hb eq_refl c). }
  assert (∀ n x, l !! n = Some x → type_of x = t) as Hty'.
  { intros n x. by apply typed_lookup. }
  destruct (l !! (2 * k + 1)%nat) as [xl|] eqn:Hxl.
  2:{ exfalso. assert (false = true); [|done]. apply Hb.
      intros c y [-> | ->] Hy; [congruence|].
      apply lookup_ge_None in Hxl. apply lookup_lt_Some in Hy. lia. }
  destruct (l !! (2 * k + 2)%nat) as [xr|] eqn:Hxr.
  2:{ exists (Raise (IndexError ListIndexOutOfRange)), l.
      rewrite bind_eq.
      rewrite (prefer_left_no_right k (mkBinaryHeap l mh ty) xl) by done.
      split; [done|]. split; [done|]. right. split; [done|].
      apply lookup_ge_None in Hxr. apply lookup_lt_Some in Hxl.
      exists (k + 1)%nat. lia. }
  destruct (prefer_left_nat t Ht k (mkBinaryHeap l mh ty) xl xr Hty Hxl Hxr)
    as (b' & Ep & Hp1 & Hp2).
  rewrite bind_eq, Ep. cbn [max_heap] in Hp1, Hp2.
  assert (above mh xl xk ∨ above mh xr xk) as Hviol.
  { destruct (above_total t Ht mh xk xl) as [H1|H1]; [by eauto..| |by left].
    destruct (above_total t Ht mh xk xr) as [H2|H2]; [by eauto..| |by right].
    exfalso. assert (false = true); [|done]. apply Hb.
    intros c y [-> | ->] Hy; by simplify_eq. }
  set (c := if b' then (2 * k + 1)%nat else (2 * k + 2)%nat).
  set (xc := if b' then xl else xr).
  assert (is_child k c) as Hkc by (unfold c, is_child; destruct b'; lia).
  assert (l !! c = Some xc) as Hxc by (unfold c, xc; by destruct b').
  assert (∀ o y, is_child k o → l !! o = Some y → above mh xc y) as Hbest.
  { intros o y [-> | ->] Hy; simplify_eq; unfold xc; destruct b'; auto;
      by apply (above_refl t Ht); eauto. }
  assert (above mh xc xk) as Hdom.
  { destruct Hviol as [H|H].
    - apply (above_trans t Ht mh _ xl _); [unfold xc; destruct b'; eauto | eauto.. | done].
      by eapply (Hbest (2 * k + 1)%nat); [left|].
    - apply (above_trans t Ht mh _ xr _); [unfold xc; destruct b'; eauto | eauto.. | done].
      by eapply (Hbest (2 * k + 2)%nat); [right|]. }
  assert (c < length l)%nat as Lc by (by eapply lookup_lt_Some).
  destruct (IH c (swapped l c k) mh ty) as (o & l' & E & Hperm & Hres).
  { eapply typed_perm; [apply swapped_perm | done]. }
  { by rewrite swapped_length. }
  { by eapply (down_inv_swapped mh l k c xk xc). }
  { rewrite swapped_length. unfold is_child in Hkc. lia. }
  exists o, l'.
  assert ((if b'
           then bind (swap_with (Z.of_nat k * 2 + 1) (Z.of_nat k))
                  (λ _, heapify_down_loop fuel (Z.of_nat k * 2 + 1))
           else bind (swap_with (Z.of_nat k * 2 + 2) (Z.of_nat k))
                  (λ _, heapify_down_loop fuel (Z.of_nat k * 2 + 2)))
            (mkBinaryHeap l mh ty)
          = heapify_down_loop fuel (Z.of_nat c) (mkBinaryHeap (swapped l c k) mh ty)) as ->.
  { unfold c. destruct b'; rewrite bind_eq.
    - replace (Z.of_nat k * 2 + 1) with (Z.of_nat (2 * k + 1)) by lia.
      by rewrite (swap_with_nat _ k (mkBinaryHeap l mh ty)) by (simpl; lia).
    - replace (Z.of_nat k * 2 + 2) with (Z.of_nat (2 * k + 2)) by lia.
      by rewrite (swap_with_nat _ k (mkBinaryHeap l mh ty)) by (simpl; lia). }
  split; [done|]. split; [by rewrite Hperm, swapped_perm|].
  by rewrite swapped_length in Hres.
Qed.

End SiftDown.

(** ** The repair loops permute the list, whatever the values *)

Lemma permuted_refl self : permuted self self.
Proof. by repeat split. Qed.

Lemma permutes_bind {A B} (m : M A) (f : A → M B) :
  permutes m → (∀ a, permutes (f a)) → permutes (bind m f).
Proof.
  intros Hm Hf self. rewrite bind_eq.
  specialize (Hm self). destruct (m self) as [[a|e|] s1]; simpl in *; [|done..].
  specialize (Hf a s1). destruct Hm as (?&?&?), Hf as (?&?&?).
  repeat split; [by etrans | congruence..].
Qed.

Lemma readonly_permutes {A} (m : M A) : readonly m → permutes m.
Proof. intros H self. destruct (H self) as [-> _]. apply permuted_refl. Qed.

Lemma py_index_Some len i k : py_index len i = Some k → (k < len)%nat.
Proof. unfold py_index. repeat case_bool_decide; intros; simplify_eq; lia. Qed.

Lemma permutes_swap_with j i : permutes (swap_with j i).
Proof.
  intros self. unfold swap_with. rewrite bind_eq.
  unfold heap_getitem at 1.
  destruct (py_index (length (heap self)) j) as [kj|] eqn:Ej; [|apply permuted_refl].
  destruct (heap self !! kj) as [temp|] eqn:Etemp; [|apply permuted_refl].
  rewrite bind_eq. unfold heap_getitem at 1.
  destruct (py_index (length (heap self)) i) as [ki|] eqn:Ei; [|apply permuted_refl].
  destruct (heap self !! ki) as [x|] eqn:Ex; [|apply permuted_refl].
  rewrite bind_eq. unfold heap_setitem at 1. rewrite Ej. unfold set_heap at 1.
  unfold heap_setitem. cbn [heap max_heap type]. rewrite length_insert, Ei.
  unfold set_heap. cbn [heap max_heap type snd].
  repeat split. cbn [heap].
  assert (<[ki:=temp]> (<[kj:=x]> (heap self)) = swapped (heap self) kj ki) as ->.
  { unfold swapped. rewrite Etemp, Ex.
    destruct (decide (ki = kj)) as [->|Hne].
    - simplify_eq. by rewrite !list_insert_insert_eq.
    - by rewrite list_insert_insert_ne. }
  apply swapped_perm.
Qed.

Lemma permutes_heapify_up_loop fuel : ∀ i parent_i, permutes (heapify_up_loop fuel i parent_i).
Proof.
  induction fuel as [|fuel IH]; intros i parent_i; simpl.
  { intros self. apply permuted_refl. }
  apply permutes_bind.
  { apply readonly_permutes, readonly_and; [apply readonly_ret|].
    apply readonly_not, readonly_check_child_invariance. }
  intros [|]; [|apply readonly_permutes, readonly_ret].
  apply permutes_bind; [apply permutes_swap_with | intros _; apply IH].
Qed.

Lemma permutes_heapify_down_loop fuel : ∀ i, permutes (heapify_down_loop fuel i).
Proof.
  induction fuel as [|fuel IH]; intros i; simpl.
  { intros self. apply permuted_refl. }
  apply permutes_bind.
  { apply readonly_permutes, readonly_not, readonly_check_child_invariance. }
  intros [|]; [|apply readonly_permutes, readonly_ret].
  apply permutes_bind; [apply readonly_permutes, readonly_prefer_left|].
  intros [|]; (apply permutes_bind; [apply permutes_swap_with | intros _; apply IH]).
Qed.

Lemma permutes_heapify_up i : permutes (_heapify_up i).
Proof.
  unfold _heapify_up. apply permutes_bind; [apply readonly_permutes, readonly_size|].
  intros n. destruct (_ || _); [apply readonly_permutes, readonly_raise|].
  apply permutes_heapify_up_loop.
Qed.

Lemma permutes_heapify_down i : permutes (_heapify_down i).
Proof.
  unfold _heapify_down. apply permutes_bind; [apply readonly_permutes, readonly_size|].
  intros n. destruct (_ || _); [apply readonly_permutes, readonly_raise|].
  apply permutes_heapify_down_loop.
Qed.

(** ** Accessors and insertion *)

Lemma heap_order_ordered_except self :
  heap_order self ↔ ordered_except (max_heap self) (heap self) (λ _ _, False).
Proof.
  unfold heap_order, ordered_except, is_child, dominates, above. split.
  - intros H i c x y Hc Hx Hy _. by eapply H.
  - intros H i c x y Hc Hx Hy. eapply H; eauto.
Qed.

(** X1 ([parent], [left_child], [right_child], [children]): with an index
    outside [0, size), the three child accessors raise [IndexError] and
    leave the object alone; so does [parent], except at index 0, where
    it returns [None], on an empty heap too. *)
Theorem accessors_out_of_range (self : BinaryHeap) (i : Z) :
  i < 0 ∨ Z.of_nat (length (heap self)) ≤ i →
  left_child i self = (Raise (IndexError IndexOutOfBounds), self)
  ∧ right_child i self = (Raise (IndexError IndexOutOfBounds), self)
  ∧ children i self = (Raise (IndexError IndexOutOfBounds), self)
  ∧ parent i self
    = (if i =? 0 then Return VNone else Raise (IndexError IndexOutOfBounds), self).
Proof.
  intros Hi.
  assert ((i <? 0) || (Z.of_nat (length (heap self)) <=? i) = true) as E.
  { apply orb_true_iff. rewrite Z.ltb_lt, Z.leb_le. lia. }
  unfold left_child, right_child, children, parent.
  rewrite !bind_eq, size_run, E. repeat split.
  destruct (i =? 0); [done|]. by rewrite bind_eq, size_run, E.
Qed.

Lemma accessors_out_of_range_witness :
  (3 < 0 ∨ Z.of_nat (length [VInt 12; VInt 10; VInt 5]) ≤ 3)
  ∧ children 3 (mkBinaryHeap [VInt 12; VInt 10; VInt 5] true (Some TInt))
    = (Raise (IndexError IndexOutOfBounds),
       mkBinaryHeap [VInt 12; VInt 10; VInt 5] true (Some TInt))
  ∧ parent 0 (fresh true) = (Return VNone, fresh true).
Proof.
  split; [right; simpl; lia|]. split.
  - apply (accessors_out_of_range
             (mkBinaryHeap [VInt 12; VInt 10; VInt 5] true (Some TInt)) 3).
    right. simpl. lia.
  - apply (accessors_out_of_range (fresh true) 0). right. simpl. lia.
Defined.

(** X2 ([left_child], [right_child], [children]): with an index inside
    [0, size), each returns the element at [2i+1], at [2i+2], or [None]
    where the list ends before, and [children] returns the pair. *)
Theorem children_in_range (self : BinaryHeap) (k : nat) :
  (k < length (heap self))%nat →
  left_child (Z.of_nat k) self
  = (Return (default VNone (heap self !! (2 * k + 1)%nat)), self)
  ∧ right_child (Z.of_nat k) self
    = (Return (default VNone (heap self !! (2 * k + 2)%nat)), self)
  ∧ children (Z.of_nat k) self
    = (Return (default VNone (heap self !! (2 * k + 1)%nat),
               default VNone (heap self !! (2 * k + 2)%nat)), self).
Proof.
  intros Hk. pose proof (left_child_nat k self Hk) as El.
  pose proof (right_child_nat k self Hk) as Er.
  split; [done|]. split; [done|].
  unfold children. rewrite bind_eq, size_run.
  destruct (Z.ltb_spec (Z.of_nat k) 0); [lia|].
  destruct (Z.leb_spec (Z.of_nat (length (heap self))) (Z.of_nat k)); [lia|].
  cbn [orb]. by rewrite bind_eq, El, bind_eq, Er.
Qed.

Lemma children_in_range_witness :
  (1 < length [VInt 12; VInt 10; VInt 5; VInt 8])%nat
  ∧ children (Z.of_nat 1) (mkBinaryHeap [VInt 12; VInt 10; VInt 5; VInt 8] true (Some TInt))
    = (Return (VInt 8, VNone),
       mkBinaryHeap [VInt 12; VInt 10; VInt 5; VInt 8] true (Some TInt)).
Proof.
  split; [simpl; lia|].
  apply (children_in_range
           (mkBinaryHeap [VInt 12; VInt 10; VInt 5; VInt 8] true (Some TInt)) 1).
  simpl. lia.
Defined.

(** X3 ([parent]): [parent] of the index of a child of [k] returns the
    element at [k]. *)
Theorem parent_of_child (self : BinaryHeap) (k c : nat) (x : value) :
  is_child k c → (c < length (heap self))%nat → heap self !! k = Some x →
  parent (Z.of_nat c) self = (Return x, self).
Proof.
  intros Hkc Hc Hx. pose proof (is_child_parent _ _ Hkc) as [Hk Hlt].
  unfold parent. destruct (Z.eqb_spec (Z.of_nat c) 0); [lia|].
  rewrite bind_eq, size_run.
  destruct (Z.ltb_spec (Z.of_nat c) 0); [lia|].
  destruct (Z.leb_spec (Z.of_nat (length (heap self))) (Z.of_nat c)); [lia|].
  cbn [orb]. cbv zeta.
  destruct (parent_nat c) as [-> | ->]; [|lia].
  rewrite <- Hk. by apply getitem_nat.
Qed.

Lemma parent_of_child_witness :
  is_child 1 4 ∧ (4 < length [VInt 12; VInt 10; VInt 5; VInt 8; VInt 7])%nat
  ∧ [VInt 12; VInt 10; VInt 5; VInt 8; VInt 7] !! 1%nat = Some (VInt 10)
  ∧ parent (Z.of_nat 4)
      (mkBinaryHeap [VInt 12; VInt 10; VInt 5; VInt 8; VInt 7] true (Some TInt))
    = (Return (VInt 10),
       mkBinaryHeap [VInt 12; VInt 10; VInt 5; VInt 8; VInt 7] true (Some TInt)).
Proof.
  split; [by right|]. split; [simpl; lia|]. split; [reflexivity|].
  apply (parent_of_child
           (mkBinaryHeap [VInt 12; VInt 10; VInt 5; VInt 8; VInt 7] true (Some TInt))
           1 4 (VInt 10)); [by right | simpl; lia | reflexivity].
Defined.

(** X4 ([add], [_is_valid_type]): a value whose type is not the heap's,
    or not a comparable one while the heap has no type yet, makes [add]
    raise the matching [TypeError] and leaves the object alone. *)
Theorem add_rejects_other_types (self : BinaryHeap) (elem : value) :
  match type self with
  | Some t => type_of elem ≠ t
  | None => isinstance elem COMPARABLE_TYPES = false
  end →
  add elem self
  = (Raise (TypeError (match type self with
                       | Some t => MustBeOfType t (type_of elem)
                       | None => UnsupportedType (type_of elem)
                       end)), self).
Proof.
  intros H. pose proof (is_valid_type_run elem self) as E.
  unfold add. rewrite bind_eq, E.
  destruct (type self) as [t|] eqn:Et.
  - rewrite bool_decide_eq_false_2 by congruence. cbn [negb].
    rewrite 2!bind_eq. unfold read at 1. by rewrite Et.
  - rewrite H. cbn [negb]. rewrite 2!bind_eq. unfold read at 1. by rewrite Et.
Qed.

Lemma add_rejects_other_types_witness :
  type_of (VInt 5) ≠ TStr
  ∧ add (VInt 5) (mkBinaryHeap [VStr "orange"; VStr "apple"] true (Some TStr))
    = (Raise (TypeError (MustBeOfType TStr TInt)),
       mkBinaryHeap [VStr "orange"; VStr "apple"] true (Some TStr)).
Proof.
  split; [discriminate|].
  apply (add_rejects_other_types
           (mkBinaryHeap [VStr "orange"; VStr "apple"] true (Some TStr)) (VInt 5)).
  discriminate.
Defined.

(** X5 ([add]): on a heap just constructed without a type, [add] of any
    value of a comparable type returns, leaves that single element and
    fixes the heap's type to the value's. *)
Theorem first_add_fixes_type (mh : bool) (elem : value) :
  isinstance elem COMPARABLE_TYPES = true →
  add elem (fresh mh) = (Return tt, mkBinaryHeap [elem] mh (Some (type_of elem))).
Proof.
  intros H. rewrite add_accepted; [done|].
  rewrite is_valid_type_run. unfold fresh. cbn [type]. by rewrite H.
Qed.

Lemma first_add_fixes_type_witness :
  isinstance (VBool true) COMPARABLE_TYPES = true
  ∧ add (VBool true) (fresh false)
    = (Return tt, mkBinaryHeap [VBool true] false (Some TBool)).
Proof.
  split; [reflexivity|]. apply (first_add_fixes_type false (VBool true)). reflexivity.
Defined.

Lemma add_Return_permuted (self self' : BinaryHeap) (elem : value) :
  add elem self = (Return tt, self') →
  heap self' ≡ₚ heap self ++ [elem]
  ∧ max_heap self' = max_heap self
  ∧ type self' = Some (type_of elem)
  ∧ (type self = None ∨ type self = Some (type_of elem)).
Proof.
  intros H. pose proof (is_valid_type_run elem self) as E.
  destruct (match type self with None => _ | Some _ => _ end) eqn:Hok.
  2:{ destruct (add_rejected _ _ E) as (m & _ & Em). congruence. }
  assert (type self = None ∨ type self = Some (type_of elem)) as Hty.
  { destruct (type self); [right|by left]. by case_bool_decide; simplify_eq. }
  rewrite (add_accepted _ _ E) in H.
  set (s1 := mkBinaryHeap _ _ _) in *.
  assert (permuted s1 self') as (Hp & Hm & Ht); [|by repeat split].
  rewrite bind_eq, size_run in H.
  destruct (1 <? _); [|injection H as <-; apply permuted_refl].
  rewrite bind_eq, size_run in H. cbv zeta in H.
  pose proof (permutes_heapify_up (Z.of_nat (length (heap s1)) - 1) s1) as R.
  by rewrite H in R.
Qed.

(** X7 ([add], any values): when [add] returns, the list holds the
    elements it held plus the new one, each as many times as before;
    the ordering flag is kept and the type is the new element's, which
    the heap either had before or had not fixed yet. *)
Theorem add_appends (self self' : BinaryHeap) (elem : value) :
  add elem self = (Return tt, self') →
  heap self' ≡ₚ heap self ++ [elem]
  ∧ max_heap self' = max_heap self
  ∧ type self' = Some (type_of elem)
  ∧ (type self = None ∨ type self = Some (type_of elem)).
Proof. apply add_Return_permuted. Qed.

Lemma add_appends_witness :
  add (VInt 12) (mkBinaryHeap [VInt 10; VInt 8; VInt 5] true (Some TInt))
  = (Return tt, mkBinaryHeap [VInt 12; VInt 10; VInt 5; VInt 8] true (Some TInt))
  ∧ [VInt 12; VInt 10; VInt 5; VInt 8] ≡ₚ [VInt 10; VInt 8; VInt 5] ++ [VInt 12].
Proof.
  assert (add (VInt 12) (mkBinaryHeap [VInt 10; VInt 8; VInt 5] true (Some TInt))
          = (Return tt, mkBinaryHeap [VInt 12; VInt 10; VInt 5; VInt 8] true (Some TInt)))
    as E by (vm_compute; reflexivity).
  split; [exact E|]. exact (proj1 (add_appends _ _ _ E)).
Defined.

(** ** Insertion keeps heap order *)


Lemma ordered_isinstance t elem :
  ordered_type t → type_of elem = t → isinstance elem COMPARABLE_TYPES = true.
Proof. intros [-> | [-> | ->]]; by destruct elem. Qed.

Lemma admits_valid t self elem :
  ordered_type t → admits t self → type_of elem = t →
  _is_valid_type elem self = (Return true, self).
Proof.
  intros Ht [_ Hty] He. rewrite is_valid_type_run.
  destruct Hty as [-> | [-> _]].
  - by rewrite bool_decide_eq_true_2.
  - by rewrite (ordered_isinstance t).
Qed.

Lemma up_inv_snoc mh l elem :
  ordered_except mh l (λ _ _, False) → up_inv mh (l ++ [elem]) (length l).
Proof.
  intros Hord. split.
  - intros i c x y Hic Hx Hy Hc.
    apply lookup_lt_Some in Hy as Hlt. rewrite length_app in Hlt. simpl in Hlt.
    pose proof (is_child_parent _ _ Hic) as [_ Hi].
    rewrite lookup_app_l in Hx, Hy by lia.
    eapply (Hord i c); [done..|by intros []].
  - intros p c x y _ Hkc _ Hy.
    apply lookup_lt_Some in Hy. rewrite length_app in Hy. simpl in Hy.
    unfold is_child in Hkc. lia.
Qed.

Lemma add_ordered (t : pytype) (self : BinaryHeap) (elem : value) :
  ordered_type t → admits t self → heap_order self → type_of elem = t →
  ∃ self',
    add elem self = (Return tt, self')
    ∧ heap self' ≡ₚ heap self ++ [elem]
    ∧ heap_order self'
    ∧ homogeneous t self'
    ∧ max_heap self' = max_heap self.
Proof.
  intros Ht Hadm Hord He.
  rewrite (add_accepted _ _ (admits_valid t self elem Ht Hadm He)).
  destruct self as [l mh ty]. cbn [heap max_heap type] in *.
  destruct Hadm as [Hty _]. rewrite He.
  assert (typed t (l ++ [elem])) as Hty1.
  { apply Forall_app. split; [done | by repeat constructor]. }
  destruct (decide (l = [])) as [->|Hne].
  { exists (mkBinaryHeap [elem] mh (Some t)). split; [done|]. split; [done|].
    split; [|by split].
    intros i c x y Hic Hx Hy. apply lookup_lt_Some in Hy. simpl in Hy.
    unfold is_child in Hic. lia. }
  assert (0 < length l)%nat as Hlen by (destruct l; [done | simpl; lia]).
  destruct (heapify_up_loop_correct t Ht (S (Z.to_nat (Z.of_nat (length (l ++ [elem])))))
              (length l) (l ++ [elem]) mh (Some t)) as (l' & E & Hperm & Hord').
  { done. }
  { rewrite length_app. simpl. lia. }
  { apply up_inv_snoc. by apply heap_order_ordered_except in Hord. }
  { rewrite length_app. simpl. lia. }
  exists (mkBinaryHeap l' mh (Some t)). split.
  - rewrite bind_eq, size_run. cbn [heap].
    destruct (Z.ltb_spec 1 (Z.of_nat (length (l ++ [elem])))) as [_|Hl];
      [|rewrite length_app in Hl; simpl in Hl; lia].
    rewrite bind_eq, size_run. cbn [heap]. cbv zeta.
    unfold _heapify_up. rewrite bind_eq, size_run. cbn [heap].
    assert (Z.of_nat (length (l ++ [elem])) - 1 = Z.of_nat (length l)) as Hi.
    { rewrite length_app. simpl. lia. }
    rewrite Hi.
    destruct (Z.ltb_spec (Z.of_nat (length l)) 0); [lia|].
    destruct (Z.leb_spec (Z.of_nat (length (l ++ [elem]))) (Z.of_nat (length l)));
      [lia|].
    cbn [orb]. cbv zeta. exact E.
  - split; [done|]. split; [by apply heap_order_ordered_except|].
    split; [|done]. split; [done|]. by eapply typed_perm.
Qed.

Lemma ordered_type_int : ordered_type TInt.
Proof. by left. Qed.

(** Heap order of a literal list, pair by pair. *)
Ltac literal_heap_order :=
  intros [|[|[|[|?]]]] ? ? ? [-> | ->] ? Hlit;
    pose proof (lookup_lt_Some _ _ _ Hlit); simpl in *; try lia;
    simplify_eq; reflexivity.

Lemma heap_order_10_8_5 :
  heap_order (mkBinaryHeap [VInt 10; VInt 8; VInt 5] true (Some TInt)).
Proof. literal_heap_order. Qed.

Lemma heap_order_12_10_5_8 :
  heap_order (mkBinaryHeap [VInt 12; VInt 10; VInt 5; VInt 8] true (Some TInt)).
Proof. literal_heap_order. Qed.

Lemma typed_10_8_5 : typed TInt [VInt 10; VInt 8; VInt 5].
Proof. by repeat constructor. Qed.

Lemma typed_12_10_5_8 : typed TInt [VInt 12; VInt 10; VInt 5; VInt 8].
Proof. by repeat constructor. Qed.

(** X9 ([add], [_heapify_up], [_check_child_invariance]): on a heap of
    [int], [bool] or [str] values that is in heap order, [add] of a
    value of that type always returns; the list then holds the old
    elements and the new one, and is in heap order again. *)
Theorem add_keeps_heap_order (t : pytype) (self : BinaryHeap) (elem : value) :
  ordered_type t → admits t self → heap_order self → type_of elem = t →
  ∃ self',
    add elem self = (Return tt, self')
    ∧ heap self' ≡ₚ heap self ++ [elem]
    ∧ heap_order self'
    ∧ homogeneous t self'
    ∧ max_heap self' = max_heap self.
Proof. apply add_ordered. Qed.

Lemma add_keeps_heap_order_witness :
  ordered_type TInt
  ∧ admits TInt (mkBinaryHeap [VInt 10; VInt 8; VInt 5] true (Some TInt))
  ∧ heap_order (mkBinaryHeap [VInt 10; VInt 8; VInt 5] true (Some TInt))
  ∧ type_of (VInt 12) = TInt
  ∧ ∃ self',
      add (VInt 12) (mkBinaryHeap [VInt 10; VInt 8; VInt 5] true (Some TInt))
      = (Return tt, self')
      ∧ heap self' ≡ₚ [VInt 10; VInt 8; VInt 5] ++ [VInt 12]
      ∧ heap_order self'
      ∧ homogeneous TInt self'
      ∧ max_heap self' = true.
Proof.
  assert (admits TInt (mkBinaryHeap [VInt 10; VInt 8; VInt 5] true (Some TInt))) as H2.
  { split; [apply typed_10_8_5 | by left]. }
  split; [exact ordered_type_int|]. split; [exact H2|].
  split; [exact heap_order_10_8_5|]. split; [reflexivity|].
  exact (add_keeps_heap_order TInt _ (VInt 12) ordered_type_int H2
           heap_order_10_8_5 eq_refl).
Defined.







(** X11 ([peek]): on a non-empty heap of [int], [bool] or [str] values in
    heap order, [peek] returns an element that is [>=] every element in
    a max-heap, [<=] every element in a min-heap, and changes nothing. *)
Theorem peek_returns_extreme (t : pytype) (self : BinaryHeap) :
  ordered_type t → typed t (heap self) → heap_order self → heap self ≠ [] →
  ∃ r, peek self = (Return r, self) ∧ ∀ y, y ∈ heap self → dominates self r y.
Proof.
  intros Ht Hty Hord Hne.
  destruct (lookup_lt_is_Some_2 (heap self) 0) as [r Hr].
  { destruct (heap self); [done | simpl; lia]. }
  exists r. split; [by apply (getitem_nat 0)|].
  assert (∀ n y, heap self !! n = Some y → above (max_heap self) r y) as Hall.
  { intros n. induction n as [n IH] using lt_wf_ind. intros y Hy.
    destruct (decide (n = O)) as [->|Hn].
    - simplify_eq. apply (above_refl t Ht). by eapply typed_lookup.
    - pose proof (parent_is_child n ltac:(lia)) as Hpc.
      pose proof (is_child_parent _ _ Hpc) as [_ Hlt].
      apply lookup_lt_Some in Hy as Hlen.
      destruct (lookup_lt_is_Some_2 (heap self) ((n - 1) / 2)) as [xp Hxp]; [lia|].
      apply (above_trans t Ht _ _ xp _); [by eapply typed_lookup.. | |].
      + by apply (IH _ Hlt).
      + apply dominates_above. by apply (Hord _ n xp y Hpc). }
  intros y Hy. apply list_elem_of_lookup in Hy as [n Hn].
  apply dominates_above. eauto.
Qed.

Lemma peek_returns_extreme_witness :
  ordered_type TInt
  ∧ typed TInt [VInt 10; VInt 8; VInt 5]
  ∧ heap_order (mkBinaryHeap [VInt 10; VInt 8; VInt 5] true (Some TInt))
  ∧ [VInt 10; VInt 8; VInt 5] ≠ []
  ∧ ∃ r, peek (mkBinaryHeap [VInt 10; VInt 8; VInt 5] true (Some TInt))
         = (Return r, mkBinaryHeap [VInt 10; VInt 8; VInt 5] true (Some TInt))
         ∧ ∀ y, y ∈ [VInt 10; VInt 8; VInt 5]
                → dominates (mkBinaryHeap [VInt 10; VInt 8; VInt 5] true (Some TInt)) r y.
Proof.
  split; [exact ordered_type_int|]. split; [exact typed_10_8_5|].
  split; [exact heap_order_10_8_5|]. split; [discriminate|].
  apply (peek_returns_extreme TInt
           (mkBinaryHeap [VInt 10; VInt 8; VInt 5] true (Some TInt))
           ordered_type_int typed_10_8_5 heap_order_10_8_5).
  discriminate.
Defined.

(** ** Overwriting a position, then repairing *)

Section Overwrite.
Variable t : pytype.
Hypothesis Ht : ordered_type t.
Implicit Types (mh : bool) (l : list value) (i : nat).

Lemma ordered_prefix mh l x :
  ordered_except mh (l ++ [x]) (λ _ _, False) → ordered_except mh l (λ _ _, False).
Proof.
  intros H i c a b Hic Ha Hb _. eapply (H i c); [done | | | by intros []].
  - by apply lookup_app_l_Some.
  - by apply lookup_app_l_Some.
Qed.

Lemma bridged_insert mh l i new :
  typed t l → ordered_except mh l (λ _ _, False) → bridged mh (<[i := new]> l) i.
Proof.
  intros Hty Hord p c x y Hpi Hic Hx Hy.
  rewrite list_lookup_insert_ne in Hx, Hy by (unfold is_child in *; lia).
  apply lookup_lt_Some in Hy as Hc.
  destruct (lookup_lt_is_Some_2 l i) as [old Hold]; [unfold is_child in *; lia|].
  apply (above_trans t Ht mh _ old _); [by eapply typed_lookup..| |].
  - eapply (Hord p i); [done..|by intros []].
  - eapply (Hord i c); [done..|by intros []].
Qed.

(** Overwriting position [i] with a value that the parent of [i] still
    dominates leaves a list that sift-down from [i] repairs. *)
Lemma down_inv_insert mh l i new :
  typed t l → ordered_except mh l (λ _ _, False) →
  (∀ p xp, is_child p i → l !! p = Some xp → above mh xp new) →
  down_inv mh (<[i := new]> l) i.
Proof.
  intros Hty Hord Hpar. split; [|by apply bridged_insert].
  intros i' c x y Hic Hx Hy Hi.
  rewrite list_lookup_insert_ne in Hx by done.
  destruct (decide (c = i)) as [->|Hc].
  - apply lookup_lt_Some in Hy as Hlt. rewrite length_insert in Hlt.
    rewrite list_lookup_insert_eq in Hy by done. injection Hy as <-. by eapply Hpar.
  - rewrite list_lookup_insert_ne in Hy by done.
    eapply (Hord i' c); [done..|by intros []].
Qed.

(** Overwriting position [i] with a value that dominates the old one
    leaves a list that sift-up from [i] repairs. *)
Lemma up_inv_insert mh l i old new :
  typed t l → type_of new = t → ordered_except mh l (λ _ _, False) →
  l !! i = Some old → above mh new old →
  up_inv mh (<[i := new]> l) i.
Proof.
  intros Hty Hnew Hord Hold Hdom. split; [|by apply bridged_insert].
  intros i' c x y Hic Hx Hy Hc.
  rewrite list_lookup_insert_ne in Hy by done.
  destruct (decide (i' = i)) as [->|Hi].
  - apply lookup_lt_Some in Hold as Hlt.
    rewrite list_lookup_insert_eq in Hx by done. injection Hx as <-.
    apply (above_trans t Ht mh _ old _); [done | by eapply typed_lookup.. | done |].
    eapply (Hord i c); [done..|by intros []].
  - rewrite list_lookup_insert_ne in Hx by done.
    eapply (Hord i' c); [done..|by intros []].
Qed.

(** [_heapify_down] from a position that is the only one out of order. *)
Lemma heapify_down_correct mh l ty i :
  typed t l → (i < length l)%nat → down_inv mh l i →
  ∃ o l',
    _heapify_down (Z.of_nat i) (mkBinaryHeap l mh ty) = (o, mkBinaryHeap l' mh ty)
    ∧ l' ≡ₚ l
    ∧ ((o = Return tt ∧ ordered_except mh l' (λ _ _, False))
       ∨ (o = Raise (IndexError ListIndexOutOfRange) ∧ Nat.Even (length l))).
Proof.
  intros Hty Hi Hinv.
  destruct (heapify_down_loop_correct t Ht (S (Z.to_nat (Z.of_nat (length l))))
              i l mh ty Hty Hi Hinv) as (o & l' & E & H); [lia|].
  exists o, l'. split; [|done].
  unfold _heapify_down. rewrite bind_eq, size_run. cbn [heap].
  destruct (Z.ltb_spec (Z.of_nat i) 0); [lia|].
  destruct (Z.leb_spec (Z.of_nat (length l)) (Z.of_nat i)); [lia|]. done.
Qed.

Lemma heapify_up_correct mh l ty i :
  typed t l → (i < length l)%nat → up_inv mh l i →
  ∃ l',
    _heapify_up (Z.of_nat i) (mkBinaryHeap l mh ty) = (Return tt, mkBinaryHeap l' mh ty)
    ∧ l' ≡ₚ l ∧ ordered_except mh l' (λ _ _, False).
Proof.
  intros Hty Hi Hinv.
  destruct (heapify_up_loop_correct t Ht (S (Z.to_nat (Z.of_nat (length l))))
              i l mh ty Hty Hi Hinv) as (l' & E & H); [lia|].
  exists l'. split; [|done].
  unfold _heapify_up. rewrite bind_eq, size_run. cbn [heap].
  destruct (Z.ltb_spec (Z.of_nat i) 0); [lia|].
  destruct (Z.leb_spec (Z.of_nat (length l)) (Z.of_nat i)); [lia|]. done.
Qed.

Lemma no_parent_of_root p : ¬ is_child p 0.
Proof. unfold is_child. lia. Qed.

End Overwrite.

(** X13 ([poll], [_heapify_down]): on a non-empty heap of [int], [bool]
    or [str] values in heap order, [poll] either returns the root and
    leaves the other elements in heap order, or raises [IndexError];
    it can raise only when the size is odd, and in both cases the list
    it leaves holds exactly the elements other than the root. *)
Theorem poll_takes_root (t : pytype) (self : BinaryHeap) (r : value) (tl : list value) :
  ordered_type t → typed t (heap self) → heap_order self → heap self = r :: tl →
  ∃ o self',
    poll self = (o, self')
    ∧ heap self' ≡ₚ tl
    ∧ max_heap self' = max_heap self ∧ type self' = type self
    ∧ ((o = Return r ∧ heap_order self')
       ∨ ((∃ m, o = Raise (IndexError m)) ∧ Nat.Odd (length (heap self)))).
Proof.
  intros Ht Hty Hord Hl. destruct self as [l mh ty]. cbn [heap max_heap type] in *.
  subst l. apply heap_order_ordered_except in Hord. cbn [heap max_heap] in Hord.
  destruct tl as [|x tl0 _] using rev_ind.
  { exists (Raise (IndexError ListAssignmentOutOfRange)), (mkBinaryHeap [] mh ty).
    split; [done|]. split; [done|]. split; [done|]. split; [done|].
    right. split; [eauto|]. by exists O. }
  assert (typed t (<[0%nat := x]> (r :: tl0))) as Hty1.
  { apply Forall_cons in Hty as [_ Hty']. apply Forall_app in Hty' as [H1 H2].
    simpl. apply Forall_cons. split; [by inversion H2 | done]. }
  destruct (heapify_down_correct t Ht mh (<[0%nat := x]> (r :: tl0)) ty 0 Hty1)
    as (o & l' & E & Hperm & Hres).
  { simpl. lia. }
  { apply (down_inv_insert t Ht).
    - apply Forall_cons in Hty as [Hr Hty']. apply Forall_app in Hty' as [H1 _].
      by apply Forall_cons.
    - by apply (ordered_prefix mh (r :: tl0) x).
    - intros p xp Hp. by destruct (no_parent_of_root p). }
  assert (l' ≡ₚ tl0 ++ [x]) as Hperm'.
  { rewrite Hperm. simpl. by rewrite Permutation_app_comm. }
  assert (poll (mkBinaryHeap (r :: tl0 ++ [x]) mh ty)
          = bind (_heapify_down 0) (λ _, ret r)
              (mkBinaryHeap (<[0%nat := x]> (r :: tl0)) mh ty)) as ->.
  { unfold poll. rewrite bind_eq, size_run. cbn [heap].
    destruct (Z.eqb_spec (Z.of_nat (length (r :: tl0 ++ [x]))) 0) as [E0|_];
      [simpl in E0; lia|].
    rewrite bind_eq. rewrite (getitem_nat 0 _ r) by done.
    rewrite bind_eq, (heap_pop_snoc (r :: tl0) x), bind_eq.
    by rewrite (setitem_nat 0) by (simpl; lia). }
  rewrite bind_eq. change 0 with (Z.of_nat 0).
  rewrite E. destruct Hres as [[-> Hord'] | [-> Heven]].
  - exists (Return r), (mkBinaryHeap l' mh ty). split; [done|]. split; [done|].
    split; [done|]. split; [done|]. left. split; [done|].
    by apply heap_order_ordered_except.
  - exists (Raise (IndexError ListIndexOutOfRange)), (mkBinaryHeap l' mh ty).
    split; [done|]. split; [done|]. split; [done|]. split; [done|].
    right. split; [eauto|].
    destruct Heven as [n Hn]. exists n. simpl in *.
    rewrite length_app. simpl. lia.
Qed.

Lemma poll_takes_root_witness :
  ordered_type TInt ∧ typed TInt [VInt 12; VInt 10; VInt 5; VInt 8]
  ∧ heap_order (mkBinaryHeap [VInt 12; VInt 10; VInt 5; VInt 8] true (Some TInt))
  ∧ poll (mkBinaryHeap [VInt 12; VInt 10; VInt 5; VInt 8] true (Some TInt))
    = (Return (VInt 12), mkBinaryHeap [VInt 10; VInt 8; VInt 5] true (Some TInt))
  ∧ ∃ o self',
      poll (mkBinaryHeap [VInt 12; VInt 10; VInt 5; VInt 8] true (Some TInt)) = (o, self')
      ∧ heap self' ≡ₚ [VInt 10; VInt 5; VInt 8]
      ∧ max_heap self' = true ∧ type self' = Some TInt
      ∧ ((o = Return (VInt 12) ∧ heap_order self')
         ∨ ((∃ m, o = Raise (IndexError m))
            ∧ Nat.Odd (length [VInt 12; VInt 10; VInt 5; VInt 8]))).
Proof.
  split; [exact ordered_type_int|]. split; [exact typed_12_10_5_8|].
  split; [exact heap_order_12_10_5_8|]. split; [vm_compute; reflexivity|].
  exact (poll_takes_root TInt
           (mkBinaryHeap [VInt 12; VInt 10; VInt 5; VInt 8] true (Some TInt))
           (VInt 12) [VInt 10; VInt 5; VInt 8]
           ordered_type_int typed_12_10_5_8 heap_order_12_10_5_8 eq_refl).
Defined.

(** ** Replacing and updating *)

(** X14 ([replace], [_heapify_down]): on a non-empty heap of [int],
    [bool] or [str] values in heap order, [replace] with a value of
    that type either returns the old root and leaves the new value and
    the other elements in heap order, or raises [IndexError]; it can
    raise only when the size is even, and in both cases the list holds
    the new value in place of the old root. *)
Theorem replace_swaps_root
    (t : pytype) (self : BinaryHeap) (r new_root : value) (tl : list value) :
  ordered_type t → typed t (heap self) → heap_order self → heap self = r :: tl →
  type_of new_root = t →
  ∃ o self',
    replace new_root self = (o, self')
    ∧ heap self' ≡ₚ new_root :: tl
    ∧ max_heap self' = max_heap self ∧ type self' = type self
    ∧ ((o = Return r ∧ heap_order self')
       ∨ (o = Raise (IndexError ListIndexOutOfRange) ∧ Nat.Even (length (heap self)))).
Proof.
  intros Ht Hty Hord Hl Hnew. destruct self as [l mh ty]. cbn [heap max_heap type] in *.
  subst l. apply heap_order_ordered_except in Hord. cbn [heap max_heap] in Hord.
  assert (typed t (new_root :: tl)) as Hty1.
  { apply Forall_cons in Hty as [_ Hty']. by apply Forall_cons. }
  destruct (heapify_down_correct t Ht mh (<[0%nat := new_root]> (r :: tl)) ty 0 Hty1)
    as (o & l' & E & Hperm & Hres).
  { simpl. lia. }
  { apply (down_inv_insert t Ht); [done..|].
    intros p xp Hp. by destruct (no_parent_of_root p). }
  assert (replace new_root (mkBinaryHeap (r :: tl) mh ty)
          = bind (_heapify_down 0) (λ _, ret r)
              (mkBinaryHeap (<[0%nat := new_root]> (r :: tl)) mh ty)) as ->.
  { unfold replace. rewrite bind_eq. unfold is_empty. rewrite bind_eq, size_run.
    unfold ret at 1. cbn [heap].
    destruct (Z.eqb_spec (Z.of_nat (length (r :: tl))) 0) as [E0|_];
      [simpl in E0; lia|].
    rewrite bind_eq. rewrite (getitem_nat 0 _ r) by done.
    rewrite bind_eq. by rewrite (setitem_nat 0) by (simpl; lia). }
  rewrite bind_eq. change 0 with (Z.of_nat 0). rewrite E.
  destruct Hres as [[-> Hord'] | [-> Heven]].
  - exists (Return r), (mkBinaryHeap l' mh ty). split; [done|]. split; [done|].
    split; [done|]. split; [done|]. left. split; [done|].
    by apply heap_order_ordered_except.
  - exists (Raise (IndexError ListIndexOutOfRange)), (mkBinaryHeap l' mh ty).
    split; [done|]. split; [done|]. split; [done|]. split; [done|].
    right. split; [done|]. by rewrite length_insert in Heven.
Qed.

Lemma replace_swaps_root_witness :
  ordered_type TInt ∧ typed TInt [VInt 10; VInt 8; VInt 5]
  ∧ heap_order (mkBinaryHeap [VInt 10; VInt 8; VInt 5] true (Some TInt))
  ∧ type_of (VInt 3) = TInt
  ∧ replace (VInt 3) (mkBinaryHeap [VInt 10; VInt 8; VInt 5] true (Some TInt))
    = (Return (VInt 10), mkBinaryHeap [VInt 8; VInt 3; VInt 5] true (Some TInt))
  ∧ ∃ o self',
      replace (VInt 3) (mkBinaryHeap [VInt 10; VInt 8; VInt 5] true (Some TInt))
      = (o, self')
      ∧ heap self' ≡ₚ [VInt 3; VInt 8; VInt 5]
      ∧ max_heap self' = true ∧ type self' = Some TInt
      ∧ ((o = Return (VInt 10) ∧ heap_order self')
         ∨ (o = Raise (IndexError ListIndexOutOfRange)
            ∧ Nat.Even (length [VInt 10; VInt 8; VInt 5]))).
Proof.
  split; [exact ordered_type_int|]. split; [exact typed_10_8_5|].
  split; [exact heap_order_10_8_5|]. split; [reflexivity|].
  split; [vm_compute; reflexivity|].
  exact (replace_swaps_root TInt
           (mkBinaryHeap [VInt 10; VInt 8; VInt 5] true (Some TInt))
           (VInt 10) (VInt 3) [VInt 8; VInt 5]
           ordered_type_int typed_10_8_5 heap_order_10_8_5 eq_refl eq_refl).
Defined.

Lemma py_eq_ordered t x y :
  ordered_type t → type_of x = t → type_of y = t → py_eq x y = true → x = y.
Proof.
  intros [-> | [-> | ->]]; destruct x, y; try done; intros _ _; simpl.
  - unfold real_eq. simpl. destruct (Z.compare_spec n n0); by subst.
  - unfold real_eq. simpl. by destruct b, b0.
  - by intros ->%String.eqb_eq.
Qed.

Lemma find_index_Some elem l i :
  find_index elem l = Some i → ∃ x, l !! i = Some x ∧ py_eq x elem = true.
Proof.
  revert i. induction l as [|x l IH]; intros i; simpl; [done|].
  destruct (py_eq x elem) eqn:E; [intros [= <-]; eauto|].
  destruct (find_index elem l) as [j|]; simpl; [|done].
  intros [= <-]. apply IH. done.
Qed.

(** The test of [update] that chooses between sift-up and sift-down. *)
Lemma update_test t mh l ty old_elem new_elem :
  ordered_type t → type_of old_elem = t → type_of new_elem = t →
  ∃ up,
    or_ (and_ (eval (py_order OpGt new_elem old_elem)) (read max_heap))
        (and_ (eval (py_order OpLt new_elem old_elem)) (not_ (read max_heap)))
      (mkBinaryHeap l mh ty)
    = (Return up, mkBinaryHeap l mh ty)
    ∧ (up = false ↔ above mh old_elem new_elem).
Proof.
  intros Ht Hold Hnew.
  destruct (py_order_ordered t OpGt new_elem old_elem Ht Hnew Hold) as (b1 & E1 & H1).
  destruct (py_order_ordered t OpLt new_elem old_elem Ht Hnew Hold) as (b2 & E2 & H2).
  unfold or_, and_, not_, eval, read. rewrite !bind_eq, E1. cbn [max_heap].
  exists (if mh then b1 else b2). rewrite (above_vle t Ht) by done.
  destruct mh, b1; rewrite ?bind_eq, ?E2; cbn; try (by destruct b2); done.
Qed.

(** X15 ([update], [_heapify_up], [_heapify_down]): on a heap of [int],
    [bool] or [str] values in heap order, [update] of a value that is
    present by a value of that type either returns [True] and leaves
    heap order with the first occurrence replaced, or raises
    [IndexError]; it can raise only when the size is even and the new
    value does not move towards the root. *)
Theorem update_repairs
    (t : pytype) (self : BinaryHeap) (old_elem new_elem : value) (i : nat) :
  ordered_type t → typed t (heap self) → heap_order self →
  type_of old_elem = t → type_of new_elem = t →
  find_index old_elem (heap self) = Some i →
  ∃ o self',
    update old_elem new_elem self = (o, self')
    ∧ heap self' ≡ₚ <[i := new_elem]> (heap self)
    ∧ max_heap self' = max_heap self ∧ type self' = type self
    ∧ ((o = Return true ∧ heap_order self')
       ∨ (o = Raise (IndexError ListIndexOutOfRange)
          ∧ Nat.Even (length (heap self)) ∧ dominates self old_elem new_elem)).
Proof.
  intros Ht Hty Hord Hold Hnew Hfind.
  destruct self as [l mh ty]. cbn [heap max_heap type] in *.
  apply heap_order_ordered_except in Hord. cbn [heap max_heap] in Hord.
  destruct (find_index_Some _ _ _ Hfind) as (x & Hx & Heq).
  apply (py_eq_ordered t) in Heq; [|done|by eapply typed_lookup|done]. subst x.
  apply lookup_lt_Some in Hx as Hi.
  assert (typed t (<[i := new_elem]> l)) as Hty1
    by (unfold typed in *; by apply Forall_insert).
  destruct (update_test t mh (<[i := new_elem]> l) ty old_elem new_elem Ht Hold Hnew)
    as (up & Eup & Hup).
  assert (update old_elem new_elem (mkBinaryHeap l mh ty)
          = bind (if up then _heapify_up (Z.of_nat i) else _heapify_down (Z.of_nat i))
              (λ _, ret true) (mkBinaryHeap (<[i := new_elem]> l) mh ty)) as ->.
  { unfold update. rewrite bind_eq, contains_run. cbn [heap].
    rewrite (find_index_Some_existsb _ _ _ Hfind). cbn [negb].
    rewrite bind_eq. unfold heap_index at 1. cbn [heap]. rewrite Hfind.
    rewrite bind_eq, setitem_nat by done. cbn [heap max_heap type].
    by rewrite bind_eq, Eup. }
  rewrite bind_eq. destruct up.
  - assert (above mh new_elem old_elem) as Hdom.
    { destruct (above_total t Ht mh old_elem new_elem Hold Hnew) as [H|H]; [|done].
      apply Hup in H. done. }
    destruct (heapify_up_correct t Ht mh (<[i := new_elem]> l) ty i Hty1)
      as (l' & E & Hperm & Hord').
    { by rewrite length_insert. }
    { by apply (up_inv_insert t Ht mh l i old_elem). }
    rewrite E. exists (Return true), (mkBinaryHeap l' mh ty).
    split; [done|]. split; [done|]. split; [done|]. split; [done|].
    left. split; [done|]. by apply heap_order_ordered_except.
  - assert (above mh old_elem new_elem) as Hdom by (by apply Hup).
    destruct (heapify_down_correct t Ht mh (<[i := new_elem]> l) ty i Hty1)
      as (o & l' & E & Hperm & Hres).
    { by rewrite length_insert. }
    { apply (down_inv_insert t Ht); [done..|].
      intros p xp Hp Hxp.
      apply (above_trans t Ht mh _ old_elem _);
        [by apply (typed_lookup t l p) | done.. | | done].
      eapply (Hord p i); [done..|by intros []]. }
    rewrite E. destruct Hres as [[-> Hord'] | [-> Heven]].
    + exists (Return true), (mkBinaryHeap l' mh ty).
      split; [done|]. split; [done|]. split; [done|]. split; [done|].
      left. split; [done|]. by apply heap_order_ordered_except.
    + exists (Raise (IndexError ListIndexOutOfRange)), (mkBinaryHeap l' mh ty).
      split; [done|]. split; [done|]. split; [done|]. split; [done|].
      right. split; [done|]. split; [by rewrite length_insert in Heven | done].
Qed.

Lemma update_repairs_witness :
  ordered_type TInt ∧ typed TInt [VInt 12; VInt 10; VInt 5; VInt 8]
  ∧ heap_order (mkBinaryHeap [VInt 12; VInt 10; VInt 5; VInt 8] true (Some TInt))
  ∧ find_index (VInt 8) [VInt 12; VInt 10; VInt 5; VInt 8] = Some 3%nat
  ∧ update (VInt 8) (VInt 15)
      (mkBinaryHeap [VInt 12; VInt 10; VInt 5; VInt 8] true (Some TInt))
    = (Return true, mkBinaryHeap [VInt 15; VInt 12; VInt 5; VInt 10] true (Some TInt))
  ∧ ∃ o self',
      update (VInt 8) (VInt 15)
        (mkBinaryHeap [VInt 12; VInt 10; VInt 5; VInt 8] true (Some TInt)) = (o, self')
      ∧ heap self' ≡ₚ <[3%nat := VInt 15]> [VInt 12; VInt 10; VInt 5; VInt 8]
      ∧ max_heap self' = true ∧ type self' = Some TInt
      ∧ ((o = Return true ∧ heap_order self')
         ∨ (o = Raise (IndexError ListIndexOutOfRange)
            ∧ Nat.Even (length [VInt 12; VInt 10; VInt 5; VInt 8])
            ∧ dominates (mkBinaryHeap [VInt 12; VInt 10; VInt 5; VInt 8] true (Some TInt))
                (VInt 8) (VInt 15))).
Proof.
  split; [exact ordered_type_int|]. split; [exact typed_12_10_5_8|].
  split; [exact heap_order_12_10_5_8|]. split; [reflexivity|].
  split; [vm_compute; reflexivity|].
  exact (update_repairs TInt
           (mkBinaryHeap [VInt 12; VInt 10; VInt 5; VInt 8] true (Some TInt))
           (VInt 8) (VInt 15) 3
           ordered_type_int typed_12_10_5_8 heap_order_12_10_5_8 eq_refl eq_refl eq_refl).
Defined.

(** ** Removal, absent values, bounds *)

Lemma insert_Permutation_delete (l : list value) i x :
  (i < length l)%nat → <[i := x]> l ≡ₚ x :: delete i l.
Proof.
  revert i. induction l as [|y l IH]; intros [|i] Hi; simpl in *; try lia; [done|].
  rewrite IH by lia. apply Permutation_swap.
Qed.

Lemma find_index_le elem l i : find_index elem l = Some i → (i < length l)%nat.
Proof.
  intros H. destruct (find_index_Some _ _ _ H) as (x & Hx & _).
  by eapply lookup_lt_Some.
Qed.

(** X16 ([remove], any values): when the value is present, [remove]
    takes exactly one element out of the list, the first one equal to
    the argument, whether it returns or raises; when it returns, it
    returns its argument. *)
Theorem remove_takes_one (self : BinaryHeap) (elem : value) (i : nat) :
  find_index elem (heap self) = Some i →
  ∃ o self' stored,
    remove elem self = (o, self')
    ∧ heap self !! i = Some stored ∧ py_eq stored elem = true
    ∧ heap self ≡ₚ stored :: heap self'
    ∧ max_heap self' = max_heap self ∧ type self' = type self
    ∧ (o = Return elem ∨ ∃ e, o = Raise e).
Proof.
  intros Hfind. destruct (find_index_Some _ _ _ Hfind) as (stored & Hst & Heq).
  destruct self as [l mh ty]. cbn [heap max_heap type] in *.
  destruct l as [|x l0 _] using rev_ind; [done|].
  assert (remove elem (mkBinaryHeap (l0 ++ [x]) mh ty)
          = bind (heap_setitem (Z.of_nat i) x)
              (λ _, _heapify_down (Z.of_nat i);; ret elem) (mkBinaryHeap l0 mh ty)) as ->.
  { unfold remove. rewrite bind_eq, contains_run. cbn [heap].
    rewrite (find_index_Some_existsb _ _ _ Hfind). cbn [negb].
    rewrite bind_eq. unfold heap_index at 1. cbn [heap]. rewrite Hfind.
    by rewrite bind_eq, heap_pop_snoc. }
  apply lookup_lt_Some in Hst as Hi. rewrite length_app in Hi. simpl in Hi.
  rewrite bind_eq.
  destruct (decide (i = length l0)) as [->|Hne].
  - pose proof (heap_setitem_at_length x (mkBinaryHeap l0 mh ty)) as E.
    cbn [heap] in E. rewrite E.
    rewrite lookup_app_r, Nat.sub_diag in Hst by done. simpl in Hst.
    injection Hst as <-.
    exists (Raise (IndexError ListAssignmentOutOfRange)), (mkBinaryHeap l0 mh ty), x.
    split; [done|]. split; [by rewrite lookup_app_r, Nat.sub_diag|].
    split; [done|]. split; [by rewrite Permutation_app_comm|]. eauto.
  - assert (i < length l0)%nat as Hi' by lia.
    rewrite lookup_app_l in Hst by done.
    rewrite setitem_nat by done. cbn [heap max_heap type]. rewrite bind_eq.
    pose proof (permutes_heapify_down (Z.of_nat i)
                  (mkBinaryHeap (<[i := x]> l0) mh ty)) as (Hp & Hm & Hty).
    pose proof (heapify_down_total (Z.of_nat i)
                  (mkBinaryHeap (<[i := x]> l0) mh ty)) as Htot.
    destruct (_heapify_down (Z.of_nat i) (mkBinaryHeap (<[i := x]> l0) mh ty))
      as [o s'] eqn:E.
    cbn [fst snd heap max_heap type] in *.
    assert (l0 ++ [x] ≡ₚ stored :: heap s') as Hperm.
    { rewrite Hp, insert_Permutation_delete by done.
      rewrite (delete_Permutation l0 i stored) at 1 by done.
      rewrite <- Permutation_cons_append. apply Permutation_swap. }
    destruct o as [[]|e|]; [| |done].
    + exists (Return elem), s', stored. split; [done|].
      split; [by rewrite lookup_app_l|]. eauto 10.
    + exists (Raise e), s', stored. split; [done|].
      split; [by rewrite lookup_app_l|]. eauto 10.
Qed.

Lemma remove_takes_one_witness :
  find_index (VInt 8) [VInt 10; VInt 8; VInt 5] = Some 1%nat
  ∧ ∃ o self' stored,
      remove (VInt 8) (mkBinaryHeap [VInt 10; VInt 8; VInt 5] true (Some TInt))
      = (o, self')
      ∧ [VInt 10; VInt 8; VInt 5] !! 1%nat = Some stored ∧ py_eq stored (VInt 8) = true
      ∧ [VInt 10; VInt 8; VInt 5] ≡ₚ stored :: heap self'
      ∧ max_heap self' = true ∧ type self' = Some TInt
      ∧ (o = Return (VInt 8) ∨ ∃ e, o = Raise e).
Proof.
  split; [reflexivity|].
  apply (remove_takes_one (mkBinaryHeap [VInt 10; VInt 8; VInt 5] true (Some TInt))
           (VInt 8) 1).
  reflexivity.
Defined.

(** X17 ([poll], [replace], [is_empty]): on an empty heap, [poll] and
    [replace] return [None] and change nothing ([replace] does not
    install its argument), and [is_empty] returns [True]. *)
Theorem empty_heap_yields_None (self : BinaryHeap) (new_root : value) :
  heap self = [] →
  poll self = (Return VNone, self)
  ∧ replace new_root self = (Return VNone, self)
  ∧ is_empty self = (Return true, self).
Proof.
  intros H. unfold poll, replace, is_empty.
  rewrite !bind_eq, size_run, H. done.
Qed.

Lemma empty_heap_yields_None_witness :
  heap (mkBinaryHeap [] false (Some TStr)) = []
  ∧ poll (mkBinaryHeap [] false (Some TStr))
    = (Return VNone, mkBinaryHeap [] false (Some TStr))
  ∧ replace (VInt 3) (mkBinaryHeap [] false (Some TStr))
    = (Return VNone, mkBinaryHeap [] false (Some TStr)).
Proof.
  split; [reflexivity|].
  destruct (empty_heap_yields_None (mkBinaryHeap [] false (Some TStr)) (VInt 3) eq_refl)
    as (H1 & H2 & _).
  by split.
Defined.




(** X19 ([_check_child_invariance], [_heapify_up], [_heapify_down]): with
    an index outside [0, size), negative ones included, each raises
    [IndexError] and changes nothing. *)
Theorem helpers_out_of_range (self : BinaryHeap) (i : Z) :
  i < 0 ∨ Z.of_nat (length (heap self)) ≤ i →
  _check_child_invariance i self = (Raise (IndexError IndexOutOfBounds), self)
  ∧ _heapify_up i self = (Raise (IndexError IndexOutOfBounds), self)
  ∧ _heapify_down i self = (Raise (IndexError IndexOutOfBounds), self).
Proof.
  intros Hi.
  assert ((i <? 0) || (Z.of_nat (length (heap self)) <=? i) = true) as E.
  { apply orb_true_iff. rewrite Z.ltb_lt, Z.leb_le. lia. }
  split; [|by unfold _heapify_up, _heapify_down; rewrite !bind_eq, size_run, E].
  unfold _check_child_invariance. rewrite bind_eq, size_run.
  destruct (Z.leb_spec (Z.of_nat (length (heap self))) i); [done|].
  assert (i < 0) as Hneg by lia.
  rewrite bind_eq. unfold read at 1.
  by destruct (max_heap self); rewrite bind_eq, child_violates_negative.
Qed.

Lemma helpers_out_of_range_witness :
  (-1 < 0 ∨ Z.of_nat (length [VInt 10; VInt 8]) ≤ -1)
  ∧ _check_child_invariance (-1) (mkBinaryHeap [VInt 10; VInt 8] true (Some TInt))
    = (Raise (IndexError IndexOutOfBounds), mkBinaryHeap [VInt 10; VInt 8] true (Some TInt)).
Proof.
  split; [left; lia|].
  apply (helpers_out_of_range (mkBinaryHeap [VInt 10; VInt 8] true (Some TInt)) (-1)).
  left. lia.
Defined.

(** X8 ([add], [contains]): after [add] of a value has returned,
    [contains] of that value returns [True], provided the value equals
    itself (every value but a NaN). *)
Theorem add_then_contains (self self' : BinaryHeap) (elem : value) :
  add elem self = (Return tt, self') → py_eq elem elem = true →
  contains elem self' = (Return true, self').
Proof.
  intros Hadd Heq. apply add_Return_permuted in Hadd as (Hp & _).
  rewrite contains_run. f_equal. f_equal.
  apply existsb_exists. exists elem. split; [|done].
  apply list_elem_of_In. rewrite Hp. apply elem_of_app. right. by left.
Qed.

Lemma add_then_contains_witness :
  add (VInt 12) (mkBinaryHeap [VInt 10; VInt 8; VInt 5] true (Some TInt))
  = (Return tt, mkBinaryHeap [VInt 12; VInt 10; VInt 5; VInt 8] true (Some TInt))
  ∧ py_eq (VInt 12) (VInt 12) = true
  ∧ contains (VInt 12) (mkBinaryHeap [VInt 12; VInt 10; VInt 5; VInt 8] true (Some TInt))
    = (Return true, mkBinaryHeap [VInt 12; VInt 10; VInt 5; VInt 8] true (Some TInt)).
Proof.
  assert (add (VInt 12) (mkBinaryHeap [VInt 10; VInt 8; VInt 5] true (Some TInt))
          = (Return tt, mkBinaryHeap [VInt 12; VInt 10; VInt 5; VInt 8] true (Some TInt)))
    as E by (vm_compute; reflexivity).
  split; [exact E|]. split; [reflexivity|].
  exact (add_then_contains _ _ _ E eq_refl).
Defined.

(** X20 ([clear], [add]): [clear] does not reset the type: an [add] after
    [clear] on a heap fixed to [t] installs a value of type [t] as the
    only element, and rejects a value of another type, leaving the heap
    empty. *)
Theorem clear_keeps_type_check (self : BinaryHeap) (t : pytype) (elem : value) :
  type self = Some t →
  (clear;; add elem) self
  = if bool_decide (t = type_of elem)
    then (Return tt, mkBinaryHeap [elem] (max_heap self) (Some t))
    else (Raise (TypeError (MustBeOfType t (type_of elem))),
          mkBinaryHeap [] (max_heap self) (Some t)).
Proof.
  intros Ht. rewrite bind_eq. unfold clear, set_heap. rewrite Ht.
  set (s := mkBinaryHeap [] (max_heap self) (Some t)).
  pose proof (is_valid_type_run elem s) as E. cbn [type s] in E.
  case_bool_decide as Hd.
  - rewrite (add_accepted _ _ E). subst t. done.
  - unfold add. rewrite bind_eq, E. cbn [negb]. by rewrite 2!bind_eq.
Qed.

Lemma clear_keeps_type_check_witness :
  type (mkBinaryHeap [VInt 10; VInt 8] true (Some TInt)) = Some TInt
  ∧ (clear;; add (VStr "x")) (mkBinaryHeap [VInt 10; VInt 8] true (Some TInt))
    = (Raise (TypeError (MustBeOfType TInt TStr)), mkBinaryHeap [] true (Some TInt)).
Proof.
  split; [reflexivity|].
  apply (clear_keeps_type_check (mkBinaryHeap [VInt 10; VInt 8] true (Some TInt))
           TInt (VStr "x") eq_refl).
Defined.

(** X12 ([_check_child_invariance]): on a heap of [int], [bool] or [str]
    values, heap order holds exactly when [_check_child_invariance]
    returns [True] at every index. *)
Theorem heap_order_iff_checks (t : pytype) (self : BinaryHeap) :
  ordered_type t → typed t (heap self) →
  heap_order self ↔
  ∀ k : nat, (k < length (heap self))%nat →
             _check_child_invariance (Z.of_nat k) self = (Return true, self).
Proof.
  intros Ht Hty. split.
  - intros Hord k Hk. destruct (lookup_lt_is_Some_2 _ _ Hk) as [x Hx].
    destruct (check_child_invariance_nat t Ht k self x Hty Hx) as (b & E & Hb).
    rewrite E. f_equal. f_equal. apply Hb.
    intros c y Hc Hy. apply dominates_above. by apply (Hord k c).
  - intros Hchk i c x y Hic Hx Hy. apply lookup_lt_Some in Hx as Hi.
    destruct (check_child_invariance_nat t Ht i self x Hty Hx) as (b & E & Hb).
    rewrite (Hchk i Hi) in E. injection E as <-.
    apply dominates_above. by apply (proj1 Hb eq_refl c).
Qed.

Lemma heap_order_iff_checks_witness :
  ordered_type TInt ∧ typed TInt [VInt 10; VInt 8; VInt 5]
  ∧ (heap_order (mkBinaryHeap [VInt 10; VInt 8; VInt 5] true (Some TInt)) ↔
     ∀ k : nat, (k < length [VInt 10; VInt 8; VInt 5])%nat →
       _check_child_invariance (Z.of_nat k)
         (mkBinaryHeap [VInt 10; VInt 8; VInt 5] true (Some TInt))
       = (Return true, mkBinaryHeap [VInt 10; VInt 8; VInt 5] true (Some TInt))).
Proof.
  split; [exact ordered_type_int|]. split; [exact typed_10_8_5|].
  exact (heap_order_iff_checks TInt
           (mkBinaryHeap [VInt 10; VInt 8; VInt 5] true (Some TInt))
           ordered_type_int typed_10_8_5).
Defined.

(** X6 ([__init__], [_is_valid_type], [add]): the constructor rejects
    [bool] as element type, yet a first [add] of a [bool] is accepted
    and fixes the type to [bool]; from then on an [int] is rejected, as
    a [bool] is by a heap of [int]. *)
Theorem bool_heap_only_by_insertion (mh b : bool) (n : Z) :
  __init__ mh (Some TBool) = Raise (TypeError InvalidElemType)
  ∧ add (VBool b) (fresh mh) = (Return tt, mkBinaryHeap [VBool b] mh (Some TBool))
  ∧ add (VInt n) (mkBinaryHeap [VBool b] mh (Some TBool))
    = (Raise (TypeError (MustBeOfType TBool TInt)), mkBinaryHeap [VBool b] mh (Some TBool))
  ∧ add (VBool b) (mkBinaryHeap [VInt n] mh (Some TInt))
    = (Raise (TypeError (MustBeOfType TInt TBool)), mkBinaryHeap [VInt n] mh (Some TInt)).
Proof. repeat split. Qed.
